(** * GroupImports: the weighted-sort import-ordering rule

    A shallow embedding of the ESLint rule that checks and regenerates the
    block of import declarations of a file (the weighted variant of
    [plugin/rules/GroupImports]), together with the shipped pattern-group
    configuration.

    Conventions of the embedding:
    - JavaScript strings are [string]s of code units; [<] on strings is
      [String.ltb] (lexicographic on code units), [===] is [String.eqb].
    - Indices, offsets and the scalar weight are integers of [Z].  Every
      number the rule computes is an integer far below 2^53, so the
      arithmetic of doubles is exact on them.
    - A value that may be [undefined] (the result of [Array.prototype.pop])
      is an [option]; truthiness is written out.
    - A call that may throw returns a [completion]. *)

From Stdlib Require Import ZArith List String Ascii Bool Lia.
From Stdlib Require Import Permutation Sorted.
Import ListNotations.

Local Open Scope string_scope.
Local Open Scope Z_scope.

(** ** The fragment of JavaScript the rule relies on *)

Module Js.

Inductive error : Type := TypeError.

Inductive completion (A : Type) : Type :=
| Normal (a : A)
| Throw (e : error).
Arguments Normal {A} a.
Arguments Throw {A} e.

Definition bind {A B : Type} (c : completion A) (k : A -> completion B)
  : completion B :=
  match c with
  | Normal a => k a
  | Throw e => Throw e
  end.

(** [array.map(f)] for an [f] that may throw: the first exception aborts. *)
Fixpoint mapM {A B : Type} (f : A -> completion B) (l : list A)
  : completion (list B) :=
  match l with
  | [] => Normal []
  | x :: rest =>
      bind (f x) (fun y => bind (mapM f rest) (fun ys => Normal (y :: ys)))
  end.

(** Truthiness of a string-or-undefined value. *)
Definition truthy (v : option string) : bool :=
  match v with
  | Some s => negb (s =? "")%string
  | None => false
  end.

(** A value inside a template literal. *)
Definition toString (v : option string) : string :=
  match v with
  | Some s => s
  | None => "undefined"
  end.

(** [array.pop()]: the last element, [undefined] on an empty array. *)
Fixpoint pop {A : Type} (l : list A) : option A :=
  match l with
  | [] => None
  | [x] => Some x
  | _ :: rest => pop rest
  end.

(** [array.join(sep)]. *)
Definition join (sep : string) (l : list string) : string :=
  String.concat sep l.

(** [array.sort(compare)].  ECMAScript requires the sort to be stable and,
    for a consistent comparator, to return the elements in non-decreasing
    order; the result is then unique and is the one computed here by
    stable insertion: an element is placed before the first element of
    the sorted remainder it does not compare greater than. *)
Section Sort.
Context {A : Type} (compare : A -> A -> Z).

Fixpoint insert (x : A) (l : list A) : list A :=
  match l with
  | [] => [x]
  | y :: rest =>
      if compare x y <=? 0 then x :: y :: rest else y :: insert x rest
  end.

Fixpoint Array_sort (l : list A) : list A :=
  match l with
  | [] => []
  | x :: rest => insert x (Array_sort rest)
  end.
End Sort.

End Js.

Import Js.

Notation "x <- c ;; k" := (Js.bind c (fun x => k))
  (at level 61, c at next level, right associativity).

(** The line feed of the template literals and of [join('\n')]. *)
Definition LF : string := String "010"%char EmptyString.

(** ** Data model (the JSDoc typedefs) *)

Record ImportSpecifier : Type := {
  spec_type : string;
  spec_start : Z;
  spec_end : Z;
  imported_name : string;
  local_name : string
}.

Record ImportNode : Type := {
  node_type : string;
  node_start : Z;
  node_end : Z;
  specifiers : list ImportSpecifier;
  source_value : string
}.

Record SingleImport : Type := {
  name : string;
  alias : string
}.

(** [wname] is the field [name] of the weight. *)
Record ImportWeight : Type := {
  group : Z;
  pattern : Z;
  type : Z;
  wname : string
}.

Record ImportRecord : Type := {
  defaultImport : option string;
  namespaceImport : option string;
  singleImports : list SingleImport;
  path : string;
  weight : ImportWeight;
  node : ImportNode
}.

(** ** configuration.js *)

Module configuration.
Definition groups : list (list string) :=
  [ [ "react"; "prop-types"; "react-*"; "redux"; "reselect"; "lodash" ];
    [ "sr-*"; "tdr-*" ];
    [ "components/**/*" ];
    [ "modules/!(utilities)" ];
    [ "modules/**/selectors" ];
    [ "modules/**/sagas" ];
    [ "modules/utilities" ] ].
End configuration.

(** ** Specifier predicates *)

Definition isImportNode (n : ImportNode) : bool :=
  (node_type n =? "ImportDeclaration")%string.

Definition isDefaultImportSpecifier (s : ImportSpecifier) : bool :=
  (spec_type s =? "ImportDefaultSpecifier")%string.

Definition isNamespaceImportSpecifier (s : ImportSpecifier) : bool :=
  (spec_type s =? "ImportNamespaceSpecifier")%string.

Definition isSingleImportSpecifier (s : ImportSpecifier) : bool :=
  (spec_type s =? "ImportSpecifier")%string.

Definition getImportSpecifierName (s : ImportSpecifier) : string :=
  local_name s.

(** ** Code regeneration of one record *)

Definition getSingleImportAsCodeString (singleImport : SingleImport) : string :=
  if (name singleImport =? alias singleImport)%string
  then name singleImport
  else name singleImport ++ " as " ++ alias singleImport.

Definition getDefaultImportRecordAsCodeString (r : ImportRecord) : string :=
  "import " ++ toString (defaultImport r) ++ " from '" ++ path r ++ "';".

Definition getDefaultAndSingleImportRecordAsCodeString (r : ImportRecord)
  : string :=
  let singleImportStrings := map getSingleImportAsCodeString (singleImports r) in
  "import " ++ toString (defaultImport r) ++ ", { "
    ++ join "," singleImportStrings ++ " } from '" ++ path r ++ "';".

Definition getDefaultAndNamespaceImportRecordAsCodeString (r : ImportRecord)
  : string :=
  "import " ++ toString (defaultImport r) ++ ", * as "
    ++ toString (namespaceImport r) ++ " from '" ++ path r ++ "';".

Definition getNamespaceImportRecordAsCodeString (r : ImportRecord) : string :=
  "import * as " ++ toString (namespaceImport r) ++ " from '" ++ path r ++ "';".

Definition getSingleImportRecordAsCodeString (r : ImportRecord) : string :=
  let singleImportStrings := map getSingleImportAsCodeString (singleImports r) in
  "import { " ++ join ", " singleImportStrings ++ " } from '" ++ path r ++ "';".

Definition getImportRecordAsCodeString (importRecord : ImportRecord) : string :=
  let hasSingleImports := (0 <? Z.of_nat (List.length (singleImports importRecord))) in
  let d := truthy (defaultImport importRecord) in
  let n := truthy (namespaceImport importRecord) in
  if d && negb n && negb hasSingleImports then
    getDefaultImportRecordAsCodeString importRecord
  else if d && n then
    getDefaultAndNamespaceImportRecordAsCodeString importRecord
  else if d && hasSingleImports then
    getDefaultAndSingleImportRecordAsCodeString importRecord
  else if n then
    getNamespaceImportRecordAsCodeString importRecord
  else if hasSingleImports then
    getSingleImportRecordAsCodeString importRecord
  else
    "".

(** ** Weights *)

Section Rule.

(** [micromatch.isMatch(path, pattern)], an external matcher, and the
    [groups] imported from the configuration module. *)
Variable isMatch : string -> string -> bool.
Variable groups : list (list string).

(** [process.platform]. *)
Variable platform : string.

Definition LINE_BREAK_LENGTH : Z :=
  if (platform =? "win32")%string then 2 else 1.

(** The object returned from inside the two loops of [getImportWeight] for
    the matching pair [(i, j)].  [singleImports[0].alias] is only evaluated
    when neither name is truthy, and throws when the array is empty. *)
Definition matchedImportWeight (defaultImport namespaceImport : option string)
  (singleImports : list SingleImport) (i j : Z) : completion ImportWeight :=
  let typeWeight :=
    if truthy defaultImport then 0
    else if truthy namespaceImport then 1
    else 2 in
  sortName <-
    (if truthy defaultImport then Normal (toString defaultImport)
     else if truthy namespaceImport then Normal (toString namespaceImport)
     else match singleImports with
          | [] => Throw TypeError
          | first :: _ => Normal (alias first)
          end) ;;
  Normal {| group := i; pattern := j; type := typeWeight; wname := sortName |}.

(** The inner loop over the patterns of group [i], from index [j] on:
    [Some] is a [return] from inside the loop, [None] falls through. *)
Fixpoint getImportWeight_patterns (defaultImport namespaceImport : option string)
  (singleImports : list SingleImport) (path : string)
  (i : Z) (patterns : list string) (j : Z) : option (completion ImportWeight) :=
  match patterns with
  | [] => None
  | pattern :: rest =>
      if isMatch path pattern
      then Some (matchedImportWeight defaultImport namespaceImport singleImports i j)
      else getImportWeight_patterns defaultImport namespaceImport singleImports
             path i rest (j + 1)
  end.

(** The outer loop over the groups, from index [i] on. *)
Fixpoint getImportWeight_groups (defaultImport namespaceImport : option string)
  (singleImports : list SingleImport) (path : string)
  (gs : list (list string)) (i : Z) : option (completion ImportWeight) :=
  match gs with
  | [] => None
  | g :: rest =>
      match getImportWeight_patterns defaultImport namespaceImport singleImports
              path i g 0 with
      | Some result => Some result
      | None => getImportWeight_groups defaultImport namespaceImport singleImports
                  path rest (i + 1)
      end
  end.

Definition degenerateWeight : ImportWeight :=
  {| group := 0; pattern := 0; type := 0; wname := "" |}.

Definition getImportWeight (defaultImport namespaceImport : option string)
  (singleImports : list SingleImport) (path : string) : completion ImportWeight :=
  match getImportWeight_groups defaultImport namespaceImport singleImports
          path groups 0 with
  | Some result => result
  | None => Normal degenerateWeight
  end.

Definition getNumericImportWeight (w : ImportWeight) : Z :=
  1000000 * group w + 1000 * pattern w + type w.

Definition createImportRecord (importNode : ImportNode) : completion ImportRecord :=
  let specifiers := specifiers importNode in
  let defaultImport :=
    pop (map getImportSpecifierName (filter isDefaultImportSpecifier specifiers)) in
  let namespaceImport :=
    pop (map getImportSpecifierName (filter isNamespaceImportSpecifier specifiers)) in
  let singleImports :=
    map (fun specifier =>
           {| name := imported_name specifier; alias := local_name specifier |})
        (filter isSingleImportSpecifier specifiers) in
  let path := source_value importNode in
  weight <- getImportWeight defaultImport namespaceImport singleImports path ;;
  Normal {| defaultImport := defaultImport;
            namespaceImport := namespaceImport;
            singleImports := singleImports;
            path := path;
            weight := weight;
            node := importNode |}.

Definition areImportWeightsSequential (weightA weightB : ImportWeight) : bool :=
  let numericWeightA := getNumericImportWeight weightA in
  let numericWeightB := getNumericImportWeight weightB in
  if numericWeightA <? numericWeightB then true
  else if numericWeightA =? numericWeightB then (wname weightA <? wname weightB)%string
  else false.

Definition areImportWeightsEqual (weightA weightB : ImportWeight) : bool :=
  (group weightA =? group weightB) &&
  (pattern weightA =? pattern weightB) &&
  (type weightA =? type weightB) &&
  (wname weightA =? wname weightB)%string.

(** ** The order validator *)

(** The body of the loop for the adjacent pair at index [i]: [true] when one
    of the two [return false] statements is taken. *)
Definition isPairFlagged (currentImportRecord nextImportRecord : ImportRecord)
  : bool :=
  negb (areImportWeightsSequential (weight currentImportRecord)
          (weight nextImportRecord))
  || ((group (weight currentImportRecord) <? group (weight nextImportRecord))
      && (node_start (node nextImportRecord) - node_end (node currentImportRecord)
          <? LINE_BREAK_LENGTH * 2)).

Fixpoint areImportRecordsCorrectlyGrouped (importRecords : list ImportRecord)
  : bool :=
  match importRecords with
  | currentImportRecord :: ((nextImportRecord :: _) as rest) =>
      if isPairFlagged currentImportRecord nextImportRecord then false
      else areImportRecordsCorrectlyGrouped rest
  | _ => true
  end.

(** ** The code regenerator *)

(** The comparator handed to [sort]. *)
Definition compareImportRecords (recordA recordB : ImportRecord) : Z :=
  let weightA := weight recordA in
  let weightB := weight recordB in
  if areImportWeightsEqual weightA weightB then 0
  else if areImportWeightsSequential weightA weightB then -1 else 1.

Definition sortedImportRecords (importRecords : list ImportRecord)
  : list ImportRecord :=
  Array_sort compareImportRecords importRecords.

(** The [map] over the sorted records; [sortedImportRecords[index + 1]] is
    the head of the remainder, [undefined] after the last record. *)
Fixpoint codeStrings (sorted : list ImportRecord) : list string :=
  match sorted with
  | [] => []
  | importRecord :: rest =>
      let codeString := getImportRecordAsCodeString importRecord in
      (match rest with
       | [] => codeString
       | nextImportRecord :: _ =>
           if group (weight nextImportRecord) =? group (weight importRecord)
           then codeString
           else codeString ++ LF
       end) :: codeStrings rest
  end.

Definition getFixedImportRecords (importRecords : list ImportRecord) : string :=
  join LF (codeStrings (sortedImportRecords importRecords)).

(** ** The rule *)

Record Report : Type := {
  report_start : Z;
  report_end : Z;
  message : string;
  fix_range : Z * Z;
  fix_text : string
}.

(** The [Program] visitor: [None] when nothing is reported. *)
Definition Program (body : list ImportNode) : completion (option Report) :=
  let importNodes := filter isImportNode body in
  match importNodes with
  | [] => Normal None
  | first :: _ =>
      importRecords <- mapM createImportRecord importNodes ;;
      if negb (areImportRecordsCorrectlyGrouped importRecords) then
        let start := node_start first in
        let end_ := node_end (last importNodes first) in
        Normal (Some {| report_start := start;
                        report_end := end_;
                        message := "Imports are in the wrong order";
                        fix_range := (start, end_);
                        fix_text := getFixedImportRecords importRecords |})
      else Normal None
  end.

End Rule.

(** ** Notions used to state the properties *)

(** [(i, j)] is the first matching pair of the configuration: the pattern
    at index [j] of the group at index [i] matches, and every other matching
    pair comes later in the scan order (groups first, then patterns). *)
Definition isFirstMatch (isMatch : string -> string -> bool)
  (groups : list (list string)) (path : string) (i j : nat) : Prop :=
  (exists g pat,
      nth_error groups i = Some g /\ nth_error g j = Some pat /\
      isMatch path pat = true) /\
  (forall i' j' g' pat',
      nth_error groups i' = Some g' -> nth_error g' j' = Some pat' ->
      isMatch path pat' = true ->
      (i < i' \/ (i = i' /\ j <= j'))%nat).

(** No pattern of the group, respectively of any group, matches the path. *)
Definition unmatchedIn (isMatch : string -> string -> bool)
  (path : string) (g : list string) : bool :=
  forallb (fun pat => negb (isMatch path pat)) g.

Definition isUnmatched (isMatch : string -> string -> bool)
  (groups : list (list string)) (path : string) : bool :=
  forallb (unmatchedIn isMatch path) groups.

(** The record names at least one binding: [defaultImport], [namespaceImport]
    or a first named import. *)
Definition hasSortName (defaultImport namespaceImport : option string)
  (singleImports : list SingleImport) : bool :=
  truthy defaultImport || truthy namespaceImport ||
  match singleImports with [] => false | _ :: _ => true end.

(** The lexicographic order on (group, pattern, type). *)
Definition lexCompare (a b : ImportWeight) : comparison :=
  match group a ?= group b with
  | Eq => match pattern a ?= pattern b with
          | Eq => type a ?= type b
          | c => c
          end
  | c => c
  end.

(** The ordering key the comparator looks at: scalar weight, then name. *)
Definition sameKey (a b : ImportWeight) : bool :=
  (getNumericImportWeight a =? getNumericImportWeight b) &&
  (wname a =? wname b)%string.

(** No two records of the list share their ordering key. *)
Fixpoint distinctKeys (l : list ImportRecord) : bool :=
  match l with
  | [] => true
  | r :: rest =>
      forallb (fun r' => negb (sameKey (weight r) (weight r'))) rest
      && distinctKeys rest
  end.

(** The list is in non-decreasing order for the comparator. *)
Definition sortedBy {A : Type} (cmp : A -> A -> Z) (l : list A) : Prop :=
  StronglySorted (fun x y => cmp x y <= 0) l.

(** ** Sample data *)

(** A matcher for literal patterns with the wildcard [*] (any run of
    characters other than [/]): the fragment of glob syntax that the
    examples below need from the external matcher. *)
Fixpoint globMatch (pattern : string) : string -> bool :=
  match pattern with
  | EmptyString =>
      fun path => match path with EmptyString => true | String _ _ => false end
  | String c pattern' =>
      if (c =? "*")%char then
        fix star (path : string) : bool :=
          globMatch pattern' path ||
          match path with
          | EmptyString => false
          | String d path' => if (d =? "/")%char then false else star path'
          end
      else
        fun path =>
          match path with
          | EmptyString => false
          | String d path' => (c =? d)%char && globMatch pattern' path'
          end
  end.

Definition sampleIsMatch (path pattern : string) : bool := globMatch pattern path.

Definition mkSpecifier (ty imported local : string) : ImportSpecifier :=
  {| spec_type := ty; spec_start := 0; spec_end := 0;
     imported_name := imported; local_name := local |}.

Definition mkImport (start end_ : Z) (specs : list ImportSpecifier)
  (source : string) : ImportNode :=
  {| node_type := "ImportDeclaration"; node_start := start; node_end := end_;
     specifiers := specs; source_value := source |}.

(** [import a from './a';] at offsets 0..20 and [import b from './b';] on the
    next line, at offsets 21..41. *)
Definition nodeRelativeA : ImportNode :=
  mkImport 0 20 [mkSpecifier "ImportDefaultSpecifier" "a" "a"] "./a".
Definition nodeRelativeB : ImportNode :=
  mkImport 21 41 [mkSpecifier "ImportDefaultSpecifier" "b" "b"] "./b".

(** The same two declarations in the other order. *)
Definition nodeRelativeB0 : ImportNode :=
  mkImport 0 20 [mkSpecifier "ImportDefaultSpecifier" "b" "b"] "./b".
Definition nodeRelativeA1 : ImportNode :=
  mkImport 21 41 [mkSpecifier "ImportDefaultSpecifier" "a" "a"] "./a".

(** [import 'react';], a declaration without specifiers. *)
Definition nodeSideEffect : ImportNode := mkImport 0 15 [] "react".

(** [import React from 'react';] and [import { helperB } from 'utils/b';]. *)
Definition nodeReact (start end_ : Z) : ImportNode :=
  mkImport start end_ [mkSpecifier "ImportDefaultSpecifier" "React" "React"] "react".
Definition nodeHelperB (start end_ : Z) : ImportNode :=
  mkImport start end_ [mkSpecifier "ImportSpecifier" "helperB" "helperB"] "utils/b".

(** The record of the docstring of [getDefaultAndSingleImportRecordAsCodeString]. *)
Definition recordReactComponent : ImportRecord :=
  {| defaultImport := Some "React";
     namespaceImport := None;
     singleImports := [ {| name := "Component"; alias := "Component" |};
                        {| name := "createRef"; alias := "createRef" |} ];
     path := "react";
     weight := {| group := 0; pattern := 0; type := 0; wname := "React" |};
     node := mkImport 0 51
               [ mkSpecifier "ImportDefaultSpecifier" "React" "React";
                 mkSpecifier "ImportSpecifier" "Component" "Component";
                 mkSpecifier "ImportSpecifier" "createRef" "createRef" ]
               "react" |}.

(** The records built from [nodeRelativeA] and [nodeRelativeB] when no
    configured pattern matches a relative path. *)
Definition recordRelativeA : ImportRecord :=
  {| defaultImport := Some "a"; namespaceImport := None; singleImports := [];
     path := "./a";
     weight := {| group := 0; pattern := 0; type := 0; wname := "" |};
     node := nodeRelativeA |}.
Definition recordRelativeB : ImportRecord :=
  {| defaultImport := Some "b"; namespaceImport := None; singleImports := [];
     path := "./b";
     weight := {| group := 0; pattern := 0; type := 0; wname := "" |};
     node := nodeRelativeB |}.

(** [import { helperB } from 'utils/b';] in a second group, placed at the
    given offsets. *)
Definition recordHelperB (start end_ : Z) : ImportRecord :=
  {| defaultImport := None; namespaceImport := None;
     singleImports := [ {| name := "helperB"; alias := "helperB" |} ];
     path := "utils/b";
     weight := {| group := 1; pattern := 0; type := 2; wname := "helperB" |};
     node := nodeHelperB start end_ |}.

(** A record without any binding. *)
Definition recordEmpty : ImportRecord :=
  {| defaultImport := None; namespaceImport := None; singleImports := [];
     path := "polyfill";
     weight := {| group := 0; pattern := 0; type := 0; wname := "" |};
     node := mkImport 0 18 [] "polyfill" |}.

(** ** rule.js: the bucket variant

    The second rule of the repository sorts the records into one bucket per
    configured group and always rewrites the block.  Its record has no
    weight and no node; its rendering functions are the ones above, written
    again over that record. *)

Module Bucket.

Record ImportRecord : Type := {
  defaultImport : option string;
  namespaceImport : option string;
  singleImports : list SingleImport;
  path : string
}.

Definition createImportRecord (importNode : ImportNode) : ImportRecord :=
  let specifiers := specifiers importNode in
  let defaultImport :=
    pop (map getImportSpecifierName (filter isDefaultImportSpecifier specifiers)) in
  let namespaceImport :=
    pop (map getImportSpecifierName (filter isNamespaceImportSpecifier specifiers)) in
  let singleImports :=
    map (fun specifier =>
           {| name := imported_name specifier; alias := local_name specifier |})
        (filter isSingleImportSpecifier specifiers) in
  {| defaultImport := defaultImport;
     namespaceImport := namespaceImport;
     singleImports := singleImports;
     path := source_value importNode |}.

Definition getDefaultImportRecordAsCodeString (r : ImportRecord) : string :=
  "import " ++ toString (defaultImport r) ++ " from '" ++ path r ++ "';".

Definition getDefaultAndSingleImportRecordAsCodeString (r : ImportRecord)
  : string :=
  let singleImportStrings := map getSingleImportAsCodeString (singleImports r) in
  "import " ++ toString (defaultImport r) ++ ", { "
    ++ join "," singleImportStrings ++ " } from '" ++ path r ++ "';".

Definition getDefaultAndNamespaceImportRecordAsCodeString (r : ImportRecord)
  : string :=
  "import " ++ toString (defaultImport r) ++ ", * as "
    ++ toString (namespaceImport r) ++ " from '" ++ path r ++ "';".

Definition getNamespaceImportRecordAsCodeString (r : ImportRecord) : string :=
  "import * as " ++ toString (namespaceImport r) ++ " from '" ++ path r ++ "';".

Definition getSingleImportRecordAsCodeString (r : ImportRecord) : string :=
  let singleImportStrings := map getSingleImportAsCodeString (singleImports r) in
  "import { " ++ join ", " singleImportStrings ++ " } from '" ++ path r ++ "';".

Definition getImportRecordAsCodeString (importRecord : ImportRecord) : string :=
  let hasSingleImports := (0 <? Z.of_nat (List.length (singleImports importRecord))) in
  let d := truthy (defaultImport importRecord) in
  let n := truthy (namespaceImport importRecord) in
  if d && negb n && negb hasSingleImports then
    getDefaultImportRecordAsCodeString importRecord
  else if d && n then
    getDefaultAndNamespaceImportRecordAsCodeString importRecord
  else if d && hasSingleImports then
    getDefaultAndSingleImportRecordAsCodeString importRecord
  else if n then
    getNamespaceImportRecordAsCodeString importRecord
  else if hasSingleImports then
    getSingleImportRecordAsCodeString importRecord
  else
    "".

Section Rule.

Variable isMatch : string -> string -> bool.
Variable groups : list (list string).

(** The state of one rule instance, [groupedImportRecords]: created by
    [new Array(groups.length).fill(0).map(_ => [])]. *)
Definition create : list (list ImportRecord) :=
  repeat [] (List.length groups).

(** [groupedImportRecords[i].push(importRecord)]; an index outside the
    array reads [undefined], whose [push] throws. *)
Fixpoint push (i : nat) (importRecord : ImportRecord)
  (groupedImportRecords : list (list ImportRecord))
  : completion (list (list ImportRecord)) :=
  match groupedImportRecords with
  | [] => Throw TypeError
  | bucket :: rest =>
      match i with
      | O => Normal ((bucket ++ [importRecord])%list :: rest)
      | S i' => rest' <- push i' importRecord rest ;; Normal (bucket :: rest')
      end
  end.

(** The [for ... of group] loop: [true] when a pattern matched, that is when
    the record was pushed and the loop left by [break]. *)
Fixpoint matchesGroup (path : string) (group : list string) : bool :=
  match group with
  | [] => false
  | match_ :: rest => if isMatch path match_ then true else matchesGroup path rest
  end.

(** The loop [for (i; i < groups.length && !hasBeenGrouped; i++)], from
    index [i] on. *)
Fixpoint groupImportRecord (importRecord : ImportRecord)
  (gs : list (list string)) (i : nat)
  (groupedImportRecords : list (list ImportRecord))
  : completion (list (list ImportRecord)) :=
  match gs with
  | [] => Normal groupedImportRecords
  | group :: rest =>
      if matchesGroup (path importRecord) group
      then push i importRecord groupedImportRecords
      else groupImportRecord importRecord rest (S i) groupedImportRecords
  end.

(** [importNodes.forEach(...)]. *)
Fixpoint forEachImportNode (importNodes : list ImportNode)
  (groupedImportRecords : list (list ImportRecord))
  : completion (list (list ImportRecord)) :=
  match importNodes with
  | [] => Normal groupedImportRecords
  | importNode :: rest =>
      grouped <- groupImportRecord (createImportRecord importNode) groups 0
                   groupedImportRecords ;;
      forEachImportNode rest grouped
  end.

(** The replacement text of [reportUngroupedImports]. *)
Definition fixText (groupedImportRecords : list (list ImportRecord)) : string :=
  join (LF ++ LF)
    (map (fun importRecords => join LF (map getImportRecordAsCodeString importRecords))
         groupedImportRecords).

(** The [Program] visitor on the state of the instance: the new state and
    the report, if any. *)
Definition Program (groupedImportRecords : list (list ImportRecord))
  (body : list ImportNode)
  : completion (list (list ImportRecord) * option Report) :=
  let importNodes := filter isImportNode body in
  match importNodes with
  | [] => Normal (groupedImportRecords, None)
  | first :: _ =>
      grouped <- forEachImportNode importNodes groupedImportRecords ;;
      let start := node_start first in
      let end_ := node_end (last importNodes first) in
      Normal (grouped,
              Some {| report_start := start;
                      report_end := end_;
                      message := "Imports are in the wrong order";
                      fix_range := (start, end_);
                      fix_text := fixText grouped |})
  end.

End Rule.

End Bucket.

(** ** Further notions *)

(** The three parts of a declaration that [createImportRecord] computes. *)
Definition nodeDefaultImport (importNode : ImportNode) : option string :=
  pop (map getImportSpecifierName
         (filter isDefaultImportSpecifier (specifiers importNode))).

Definition nodeNamespaceImport (importNode : ImportNode) : option string :=
  pop (map getImportSpecifierName
         (filter isNamespaceImportSpecifier (specifiers importNode))).

Definition nodeSingleImports (importNode : ImportNode) : list SingleImport :=
  map (fun specifier =>
         {| name := imported_name specifier; alias := local_name specifier |})
      (filter isSingleImportSpecifier (specifiers importNode)).

(** The index of the first group one of whose patterns matches the path. *)
Fixpoint firstGroupIndex (isMatch : string -> string -> bool)
  (gs : list (list string)) (path : string) : option nat :=
  match gs with
  | [] => None
  | g :: rest =>
      if existsb (isMatch path) g then Some 0%nat
      else option_map S (firstGroupIndex isMatch rest path)
  end.

Definition inGroup (isMatch : string -> string -> bool)
  (groups : list (list string)) (i : nat) (r : Bucket.ImportRecord) : bool :=
  match firstGroupIndex isMatch groups (Bucket.path r) with
  | Some k => (k =? i)%nat
  | None => false
  end.

(** The record of the bucket variant with the fields of a weighted record. *)
Definition forgetWeight (r : ImportRecord) : Bucket.ImportRecord :=
  {| Bucket.defaultImport := defaultImport r;
     Bucket.namespaceImport := namespaceImport r;
     Bucket.singleImports := singleImports r;
     Bucket.path := path r |}.


(** Strict precedence of records, and the strict lexicographic order on
    (group, pattern, type, name). *)
Definition precedes (a b : ImportRecord) : Prop :=
  areImportWeightsSequential (weight a) (weight b) = true.

Definition lexBefore (a b : ImportWeight) : bool :=
  match lexCompare a b with
  | Lt => true
  | Eq => (wname a <? wname b)%string
  | Gt => false
  end.

(** The weight stays inside the ranges of the scalar key. *)
Definition inKeyRange (w : ImportWeight) : Prop :=
  0 <= group w /\ 0 <= pattern w < 1000 /\ 0 <= type w < 1000.

(** The records sit in a text as [getFixedImportRecords] lays a block out:
    a declaration starts one character (the line feed) after the end of the
    previous one when the groups are the same, two characters after it when
    they differ. *)
Fixpoint laidOut (s : list ImportRecord) : Prop :=
  match s with
  | a :: ((b :: _) as rest) =>
      node_start (node b) - node_end (node a) =
        (if group (weight b) =? group (weight a) then 1 else 2)
      /\ laidOut rest
  | _ => True
  end.

(** * Properties *)

(** ** The weight calculator *)

Section WeightFacts.

Variable isMatch : string -> string -> bool.

Lemma patterns_none d n s path i pats j :
  getImportWeight_patterns isMatch d n s path i pats j = None <->
  unmatchedIn isMatch path pats = true.
Proof.
  revert j; induction pats as [|pat rest IH]; intros j; simpl.
  - tauto.
  - destruct (isMatch path pat); simpl.
    + split; discriminate.
    + apply IH.
Qed.

Lemma patterns_some d n s path i pats j r :
  getImportWeight_patterns isMatch d n s path i pats j = Some r ->
  exists k pat,
    nth_error pats k = Some pat /\ isMatch path pat = true /\
    (forall k' p', (k' < k)%nat -> nth_error pats k' = Some p' ->
                   isMatch path p' = false) /\
    r = matchedImportWeight d n s i (j + Z.of_nat k).
Proof.
  revert j; induction pats as [|pat rest IH]; intros j; simpl.
  - discriminate.
  - destruct (isMatch path pat) eqn:Hm.
    + intros [= <-]. exists 0%nat, pat. repeat split; auto.
      * intros k' p' Hlt; lia.
      * now rewrite Z.add_0_r.
    + intros H. destruct (IH _ H) as (k & p & Hk & Hp & Hmin & ->).
      exists (S k), p. repeat split; auto.
      * intros [|k'] p' Hlt; simpl.
        -- now intros [= <-].
        -- apply Hmin; lia.
      * f_equal; lia.
Qed.

Lemma groups_none d n s path gs i :
  getImportWeight_groups isMatch d n s path gs i = None <->
  isUnmatched isMatch gs path = true.
Proof.
  revert i; induction gs as [|g rest IH]; intros i; simpl.
  - tauto.
  - destruct (getImportWeight_patterns isMatch d n s path i g 0) eqn:Hp.
    + split; [discriminate|].
      intros H. apply andb_true_iff in H as [H _].
      apply (patterns_none d n s path i g 0) in H. congruence.
    + apply patterns_none in Hp. rewrite Hp. simpl.
      apply IH.
Qed.

Lemma groups_some d n s path gs i r :
  getImportWeight_groups isMatch d n s path gs i = Some r ->
  exists a k g pat,
    nth_error gs a = Some g /\ nth_error g k = Some pat /\
    isMatch path pat = true /\
    (forall a' g', (a' < a)%nat -> nth_error gs a' = Some g' ->
                   unmatchedIn isMatch path g' = true) /\
    (forall k' p', (k' < k)%nat -> nth_error g k' = Some p' ->
                   isMatch path p' = false) /\
    r = matchedImportWeight d n s (i + Z.of_nat a) (Z.of_nat k).
Proof.
  revert i; induction gs as [|g rest IH]; intros i; simpl.
  - discriminate.
  - destruct (getImportWeight_patterns isMatch d n s path i g 0) eqn:Hp.
    + intros [= <-]. apply patterns_some in Hp as (k & pat & Hk & Hm & Hmin & ->).
      exists 0%nat, k, g, pat. repeat split; auto.
      * intros a' g' Hlt; lia.
      * f_equal; lia.
    + intros H. destruct (IH _ H) as (a & k & g0 & pat & Ha & Hk & Hm & Hg & Hmin & ->).
      exists (S a), k, g0, pat. repeat split; auto.
      * intros [|a'] g' Hlt; simpl.
        -- intros [= <-]. now apply patterns_none in Hp.
        -- apply Hg; lia.
      * f_equal; lia.
Qed.

Lemma unmatchedIn_nth path g k pat :
  unmatchedIn isMatch path g = true -> nth_error g k = Some pat ->
  isMatch path pat = false.
Proof.
  unfold unmatchedIn. rewrite forallb_forall. intros H Hk.
  apply nth_error_In in Hk. apply H in Hk.
  now destruct (isMatch path pat).
Qed.

Lemma isUnmatched_nth groups path i g :
  isUnmatched isMatch groups path = true -> nth_error groups i = Some g ->
  unmatchedIn isMatch path g = true.
Proof.
  unfold isUnmatched. rewrite forallb_forall. intros H Hi.
  apply nth_error_In in Hi. now apply H in Hi.
Qed.

(** The weight of a path whose first matching pair is [(i, j)]. *)
Lemma getImportWeight_first_match groups d n s path i j :
  isFirstMatch isMatch groups path i j ->
  getImportWeight isMatch groups d n s path =
  matchedImportWeight d n s (Z.of_nat i) (Z.of_nat j).
Proof.
  intros [(g & pat & Hi & Hj & Hm) Hfirst]. unfold getImportWeight.
  destruct (getImportWeight_groups isMatch d n s path groups 0) as [r|] eqn:Hr.
  - apply groups_some in Hr
      as (a & k & g0 & pat0 & Ha & Hk & Hm0 & Hg & Hmin & ->).
    assert (Hik : i = a /\ j = k).
    { destruct (Hfirst _ _ _ _ Ha Hk Hm0) as [Hlt | [-> Hle]].
      - pose proof (Hg _ _ Hlt Hi) as Hu.
        rewrite (unmatchedIn_nth _ _ _ _ Hu Hj) in Hm. discriminate.
      - split; [reflexivity|].
        assert (g0 = g) as -> by congruence.
        destruct (Nat.eq_dec j k) as [|Hne]; [assumption|].
        assert (Hlt : (j < k)%nat) by lia.
        rewrite (Hmin _ _ Hlt Hj) in Hm. discriminate. }
    destruct Hik as [-> ->]. reflexivity.
  - apply groups_none in Hr.
    pose proof (isUnmatched_nth _ _ _ _ Hr Hi) as Hu.
    rewrite (unmatchedIn_nth _ _ _ _ Hu Hj) in Hm. discriminate.
Qed.

Lemma matchedImportWeight_named d n s i j :
  hasSortName d n s = true ->
  exists w, matchedImportWeight d n s i j = Normal w /\
            group w = i /\ pattern w = j /\
            type w = (if truthy d then 0 else if truthy n then 1 else 2).
Proof.
  unfold hasSortName, matchedImportWeight. intros H.
  destruct (truthy d); [eexists; simpl; eauto|].
  destruct (truthy n); [eexists; simpl; eauto|].
  destruct s; [discriminate|]. eexists; simpl; eauto.
Qed.

(** A weight that comes out of a match: its indices are inside the
    configuration, its rank is 0, 1 or 2, and rank 0 carries the non-empty
    default name. *)
Lemma matchedImportWeight_shape d n s i j w :
  matchedImportWeight d n s i j = Normal w ->
  group w = i /\ pattern w = j /\ 0 <= type w <= 2 /\
  (type w = 0 -> wname w <> "").
Proof.
  unfold matchedImportWeight.
  destruct d as [ds|]; simpl.
  - destruct (String.eqb_spec ds ""); simpl.
    + destruct (truthy n); simpl.
      * intros [= <-]; simpl. repeat split; lia.
      * destruct s; simpl; [discriminate|].
        intros [= <-]; simpl. repeat split; lia.
    + intros [= <-]; simpl. repeat split; auto; lia.
  - destruct (truthy n); simpl.
    + intros [= <-]; simpl. repeat split; lia.
    + destruct s; simpl; [discriminate|].
      intros [= <-]; simpl. repeat split; lia.
Qed.

Lemma getImportWeight_unmatched groups d n s path :
  isUnmatched isMatch groups path = true ->
  getImportWeight isMatch groups d n s path = Normal degenerateWeight.
Proof.
  intros H. unfold getImportWeight.
  now rewrite (proj2 (groups_none d n s path groups 0) H).
Qed.

Lemma getImportWeight_matched groups d n s path :
  isUnmatched isMatch groups path = false ->
  exists a k g,
    nth_error groups a = Some g /\ (k < List.length g)%nat /\
    getImportWeight isMatch groups d n s path =
    matchedImportWeight d n s (Z.of_nat a) (Z.of_nat k).
Proof.
  intros H. unfold getImportWeight.
  destruct (getImportWeight_groups isMatch d n s path groups 0) as [r|] eqn:Hr.
  - apply groups_some in Hr as (a & k & g & pat & Ha & Hk & _ & _ & _ & ->).
    exists a, k, g. repeat split; auto.
    apply nth_error_Some. congruence.
  - apply groups_none in Hr. congruence.
Qed.

End WeightFacts.

(** ** The order on weights *)

Section StringOrder.

Local Open Scope N_scope.

Lemma ascii_compare_refl c : Ascii.compare c c = Eq.
Proof. unfold Ascii.compare. apply N.compare_refl. Qed.

Lemma ascii_compare_trans a b c :
  Ascii.compare a b = Lt -> Ascii.compare b c = Lt -> Ascii.compare a c = Lt.
Proof.
  unfold Ascii.compare. rewrite !N.compare_lt_iff. apply N.lt_trans.
Qed.

Lemma string_compare_refl s : String.compare s s = Eq.
Proof.
  induction s as [|c s IH]; simpl; [reflexivity|].
  now rewrite ascii_compare_refl.
Qed.

Lemma string_compare_trans s1 s2 s3 :
  String.compare s1 s2 = Lt -> String.compare s2 s3 = Lt ->
  String.compare s1 s3 = Lt.
Proof.
  revert s2 s3; induction s1 as [|a s1 IH]; intros [|b s2] [|c s3]; simpl;
    try congruence.
  destruct (Ascii.compare a b) eqn:Hab; try discriminate;
    destruct (Ascii.compare b c) eqn:Hbc; try discriminate; intros H12 H23.
  - apply Ascii.compare_eq_iff in Hab, Hbc. subst.
    rewrite ascii_compare_refl. eauto.
  - apply Ascii.compare_eq_iff in Hab. subst. now rewrite Hbc.
  - apply Ascii.compare_eq_iff in Hbc. subst. now rewrite Hab.
  - now rewrite (ascii_compare_trans _ _ _ Hab Hbc).
Qed.

End StringOrder.

Lemma string_ltb_irrefl s : (s <? s)%string = false.
Proof. unfold String.ltb. now rewrite string_compare_refl. Qed.

Lemma string_ltb_trans s1 s2 s3 :
  (s1 <? s2)%string = true -> (s2 <? s3)%string = true ->
  (s1 <? s3)%string = true.
Proof.
  unfold String.ltb.
  destruct (String.compare s1 s2) eqn:H12; try discriminate.
  destruct (String.compare s2 s3) eqn:H23; try discriminate.
  now rewrite (string_compare_trans _ _ _ H12 H23).
Qed.

Lemma string_ltb_asym s1 s2 :
  (s1 <? s2)%string = true -> (s2 <? s1)%string = false.
Proof.
  unfold String.ltb. rewrite (String.compare_antisym s2 s1).
  now destruct (String.compare s1 s2).
Qed.

Lemma string_ltb_total s1 s2 :
  (s1 <? s2)%string = false -> (s2 <? s1)%string = false -> s1 = s2.
Proof.
  unfold String.ltb. rewrite (String.compare_antisym s2 s1).
  destruct (String.compare s1 s2) eqn:H; simpl; try discriminate.
  intros _ _. now apply String.compare_eq_iff.
Qed.

Lemma string_ltb_empty s : s <> "" -> ("" <? s)%string = true.
Proof. destruct s; [congruence|reflexivity]. Qed.

Section SequentialFacts.

Implicit Types a b c : ImportWeight.

Lemma areImportWeightsSequential_true a b :
  areImportWeightsSequential a b = true <->
  getNumericImportWeight a < getNumericImportWeight b \/
  (getNumericImportWeight a = getNumericImportWeight b /\
   (wname a <? wname b)%string = true).
Proof.
  unfold areImportWeightsSequential. cbv zeta.
  destruct (Z.ltb_spec (getNumericImportWeight a) (getNumericImportWeight b)).
  - split; [now left | reflexivity].
  - destruct (Z.eqb_spec (getNumericImportWeight a) (getNumericImportWeight b)).
    + split; [now right|]. intros [?|[_ ?]]; [lia|assumption].
    + split; [discriminate|]. intros [?|[? _]]; lia.
Qed.

Lemma sequential_irrefl a : areImportWeightsSequential a a = false.
Proof.
  destruct (areImportWeightsSequential a a) eqn:H; [|reflexivity].
  apply areImportWeightsSequential_true in H as [H|[_ H]]; [lia|].
  now rewrite string_ltb_irrefl in H.
Qed.

Lemma sequential_trans a b c :
  areImportWeightsSequential a b = true ->
  areImportWeightsSequential b c = true ->
  areImportWeightsSequential a c = true.
Proof.
  rewrite !areImportWeightsSequential_true.
  intros [Hab|[Hab Nab]] [Hbc|[Hbc Nbc]]; try (left; lia).
  right. split; [lia|]. eapply string_ltb_trans; eassumption.
Qed.

Lemma sequential_asym a b :
  areImportWeightsSequential a b = true ->
  areImportWeightsSequential b a = false.
Proof.
  intros Hab. destruct (areImportWeightsSequential b a) eqn:Hba; [|reflexivity].
  pose proof (sequential_trans _ _ _ Hab Hba) as H.
  now rewrite sequential_irrefl in H.
Qed.

Lemma sequential_total a b :
  areImportWeightsSequential a b = false ->
  areImportWeightsSequential b a = false ->
  sameKey a b = true.
Proof.
  unfold areImportWeightsSequential, sameKey. cbv zeta.
  destruct (Z.ltb_spec (getNumericImportWeight a) (getNumericImportWeight b));
    [discriminate|].
  destruct (Z.ltb_spec (getNumericImportWeight b) (getNumericImportWeight a));
    [discriminate|].
  replace (getNumericImportWeight b =? getNumericImportWeight a)
    with true by (symmetry; apply Z.eqb_eq; lia).
  replace (getNumericImportWeight a =? getNumericImportWeight b)
    with true by (symmetry; apply Z.eqb_eq; lia).
  intros Hab Hba. rewrite (string_ltb_total _ _ Hab Hba).
  now rewrite String.eqb_refl.
Qed.

Lemma areImportWeightsEqual_eq a b :
  areImportWeightsEqual a b = true <-> a = b.
Proof.
  unfold areImportWeightsEqual. rewrite !andb_true_iff, !Z.eqb_eq, String.eqb_eq.
  destruct a, b; simpl. split.
  - intros [[[-> ->] ->] ->]. reflexivity.
  - intros [= -> -> -> ->]. auto.
Qed.

Lemma sameKey_sym a b : sameKey a b = sameKey b a.
Proof.
  unfold sameKey. now rewrite Z.eqb_sym, String.eqb_sym.
Qed.

Lemma sameKey_not_sequential a b :
  sameKey a b = true -> areImportWeightsSequential a b = false.
Proof.
  unfold sameKey. rewrite andb_true_iff, Z.eqb_eq, String.eqb_eq.
  intros [Hn Hs].
  destruct (areImportWeightsSequential a b) eqn:H; [|reflexivity].
  apply areImportWeightsSequential_true in H as [H|[_ H]]; [lia|].
  now rewrite Hs, string_ltb_irrefl in H.
Qed.

(** Equal weights are never sequential: the second branch of
    [areImportWeightsSequential] compares the names strictly. *)
Lemma equal_not_sequential a b :
  areImportWeightsEqual a b = true -> areImportWeightsSequential a b = false.
Proof.
  intros H. apply areImportWeightsEqual_eq in H as ->. apply sequential_irrefl.
Qed.

End SequentialFacts.

(** ** The sort *)

Section SortFacts.

Context {A : Type} (cmp : A -> A -> Z).

Lemma insert_perm x l : Permutation (x :: l) (insert cmp x l).
Proof.
  induction l as [|y rest IH]; simpl; [reflexivity|].
  destruct (cmp x y <=? 0); [reflexivity|].
  rewrite perm_swap. now constructor.
Qed.

Lemma Array_sort_perm l : Permutation l (Array_sort cmp l).
Proof.
  induction l as [|x rest IH]; simpl; [constructor|].
  rewrite <- insert_perm. now constructor.
Qed.

(** On a set [P] of elements where the comparator is a total order, the
    result is the sorted arrangement, and it does not depend on the order
    in which the elements are supplied. *)
Variable P : A -> Prop.
Hypothesis cmp_trans :
  forall x y z, P x -> P y -> P z -> cmp x y <= 0 -> cmp y z <= 0 -> cmp x z <= 0.
Hypothesis cmp_total :
  forall x y, P x -> P y -> cmp x y <= 0 \/ cmp y x <= 0.
Hypothesis cmp_antisym :
  forall x y, P x -> P y -> cmp x y <= 0 -> cmp y x <= 0 -> x = y.

Lemma insert_sorted x l :
  P x -> Forall P l -> sortedBy cmp l -> sortedBy cmp (insert cmp x l).
Proof.
  unfold sortedBy. intros Px Pl Hs.
  induction l as [|y rest IH]; simpl.
  - repeat constructor.
  - inversion Pl as [|? ? Py Prest]; subst.
    apply StronglySorted_inv in Hs as [Hrest Hy].
    destruct (Z.leb_spec (cmp x y) 0) as [Hxy|Hxy].
    + constructor; [constructor; assumption|].
      constructor; [assumption|].
      rewrite Forall_forall in *. intros z Hz.
      apply (cmp_trans x y z); auto.
    + constructor; [auto|].
      apply (Permutation_Forall (insert_perm x rest)).
      constructor; [|assumption].
      destruct (cmp_total x y Px Py); [lia|assumption].
Qed.

Lemma Array_sort_sorted l : Forall P l -> sortedBy cmp (Array_sort cmp l).
Proof.
  induction l as [|x rest IH]; simpl; intros Pl.
  - constructor.
  - inversion Pl; subst. apply insert_sorted; auto.
    apply (Permutation_Forall (Array_sort_perm rest)). assumption.
Qed.

Lemma sortedBy_unique l1 l2 :
  Forall P l1 -> Permutation l1 l2 -> sortedBy cmp l1 -> sortedBy cmp l2 -> l1 = l2.
Proof.
  unfold sortedBy. revert l2.
  induction l1 as [|a t1 IH]; intros l2 P1 Hperm S1 S2.
  - apply Permutation_nil in Hperm. now subst.
  - destruct l2 as [|b t2].
    { symmetry in Hperm. apply Permutation_nil in Hperm. discriminate. }
    pose proof (Permutation_Forall Hperm P1) as P2.
    inversion P1 as [|? ? Pa Pt1]; subst.
    inversion P2 as [|? ? Pb Pt2]; subst.
    apply StronglySorted_inv in S1 as [S1 Ha].
    apply StronglySorted_inv in S2 as [S2 Hb].
    assert (Hab : a = b).
    { assert (Hin_b : In b (a :: t1)).
      { apply (Permutation_in _ (Permutation_sym Hperm)). now left. }
      assert (Hin_a : In a (b :: t2)).
      { apply (Permutation_in _ Hperm). now left. }
      destruct Hin_b as [|Hin_b]; [assumption|].
      destruct Hin_a as [|Hin_a]; [now symmetry|].
      rewrite Forall_forall in Ha, Hb.
      apply cmp_antisym; auto. }
    subst b. f_equal. apply IH; auto.
    now apply Permutation_cons_inv in Hperm.
Qed.

Lemma Array_sort_permutation l l' :
  Forall P l -> Permutation l l' -> Array_sort cmp l = Array_sort cmp l'.
Proof.
  intros Pl Hperm.
  pose proof (Permutation_Forall Hperm Pl) as Pl'.
  apply sortedBy_unique.
  - apply (Permutation_Forall (Array_sort_perm l)). assumption.
  - rewrite <- (Array_sort_perm l), <- (Array_sort_perm l'). assumption.
  - now apply Array_sort_sorted.
  - now apply Array_sort_sorted.
Qed.

End SortFacts.

(** ** The comparator of the regenerator *)

Section ComparatorFacts.

Implicit Types x y z : ImportRecord.

Lemma compareImportRecords_le x y :
  compareImportRecords x y <= 0 <->
  weight x = weight y \/
  areImportWeightsSequential (weight x) (weight y) = true.
Proof.
  unfold compareImportRecords. cbv zeta.
  destruct (areImportWeightsEqual (weight x) (weight y)) eqn:He.
  - apply areImportWeightsEqual_eq in He. split; [auto|lia].
  - assert (Hne : weight x <> weight y).
    { intros H. apply areImportWeightsEqual_eq in H. congruence. }
    destruct (areImportWeightsSequential (weight x) (weight y));
      split; try lia; auto.
    intros [?|?]; [contradiction|discriminate].
Qed.

Lemma compareImportRecords_trans x y z :
  compareImportRecords x y <= 0 -> compareImportRecords y z <= 0 ->
  compareImportRecords x z <= 0.
Proof.
  rewrite !compareImportRecords_le.
  intros [Hxy|Hxy] [Hyz|Hyz].
  - left; congruence.
  - right; now rewrite Hxy.
  - right; now rewrite <- Hyz.
  - right; eapply sequential_trans; eassumption.
Qed.

Lemma compareImportRecords_sameKey x y :
  compareImportRecords x y <= 0 -> compareImportRecords y x <= 0 ->
  sameKey (weight x) (weight y) = true.
Proof.
  rewrite !compareImportRecords_le.
  assert (Hrefl : forall w, sameKey w w = true).
  { intros w. unfold sameKey. now rewrite Z.eqb_refl, String.eqb_refl. }
  intros [Hxy|Hxy] [Hyx|Hyx]; try (rewrite Hxy; apply Hrefl);
    try (rewrite <- Hyx; apply Hrefl).
  apply sequential_asym in Hxy. congruence.
Qed.

Lemma distinctKeys_In l x y :
  distinctKeys l = true -> In x l -> In y l ->
  sameKey (weight x) (weight y) = true -> x = y.
Proof.
  induction l as [|r rest IH]; simpl; [contradiction|].
  rewrite andb_true_iff, forallb_forall. intros [Hr Hrest] Hx Hy Hk.
  destruct Hx as [<-|Hx], Hy as [<-|Hy]; auto.
  - apply Hr in Hy. now rewrite Hk in Hy.
  - apply Hr in Hx. rewrite sameKey_sym in Hk. now rewrite Hk in Hx.
Qed.

(** Sorting a list without key collisions gives the same arrangement for
    every order in which the records come. *)
Lemma sortedImportRecords_permutation l l' :
  distinctKeys l = true -> Permutation l l' ->
  sortedImportRecords l = sortedImportRecords l'.
Proof.
  intros Hd Hperm. unfold sortedImportRecords.
  apply (Array_sort_permutation compareImportRecords (fun r => In r l)).
  - intros x y z _ _ _. apply compareImportRecords_trans.
  - intros x y Hx Hy.
    destruct (areImportWeightsSequential (weight x) (weight y)) eqn:Hxy.
    { left. apply compareImportRecords_le. now right. }
    destruct (areImportWeightsSequential (weight y) (weight x)) eqn:Hyx.
    { right. apply compareImportRecords_le. now right. }
    pose proof (sequential_total _ _ Hxy Hyx) as Hk.
    rewrite (distinctKeys_In l x y Hd Hx Hy Hk).
    left. apply compareImportRecords_le. now left.
  - intros x y Hx Hy Hxy Hyx.
    apply (distinctKeys_In l); auto.
    now apply compareImportRecords_sameKey.
  - apply Forall_forall. auto.
  - assumption.
Qed.

End ComparatorFacts.

(** ** Unmatched records in the sorted block *)

Section UnmatchedFirst.

Local Open Scope list_scope.

Lemma compare_unmatched_any x y :
  weight x = degenerateWeight ->
  weight y = degenerateWeight \/
  areImportWeightsSequential degenerateWeight (weight y) = true ->
  compareImportRecords x y <= 0.
Proof.
  intros Hx Hy. apply compareImportRecords_le. rewrite Hx.
  destruct Hy as [->|Hy]; auto.
Qed.

Lemma compare_matched_unmatched x y :
  areImportWeightsSequential degenerateWeight (weight x) = true ->
  weight y = degenerateWeight ->
  compareImportRecords x y = 1.
Proof.
  intros Hx Hy. unfold compareImportRecords. cbv zeta. rewrite Hy.
  rewrite (sequential_asym _ _ Hx).
  destruct (areImportWeightsEqual (weight x) degenerateWeight) eqn:He;
    [|reflexivity].
  apply areImportWeightsEqual_eq in He. rewrite He in Hx.
  now rewrite sequential_irrefl in Hx.
Qed.

Lemma insert_unmatched x l :
  weight x = degenerateWeight ->
  Forall (fun r => weight r = degenerateWeight \/
                   areImportWeightsSequential degenerateWeight (weight r) = true) l ->
  insert compareImportRecords x l = x :: l.
Proof.
  intros Hx Hl. destruct l as [|y rest]; simpl; [reflexivity|].
  inversion Hl as [|? ? Hy _]; subst.
  pose proof (compare_unmatched_any x y Hx Hy) as Hle.
  apply Z.leb_le in Hle. now rewrite Hle.
Qed.

Lemma insert_matched x us ms :
  areImportWeightsSequential degenerateWeight (weight x) = true ->
  Forall (fun r => weight r = degenerateWeight) us ->
  insert compareImportRecords x (us ++ ms) =
  us ++ insert compareImportRecords x ms.
Proof.
  intros Hx Hus. induction Hus as [|u us Hu _ IH]; simpl; [reflexivity|].
  rewrite (compare_matched_unmatched x u Hx Hu). simpl. now rewrite IH.
Qed.

Lemma sortedImportRecords_unmatched_first l :
  Forall (fun r => weight r = degenerateWeight \/
                   areImportWeightsSequential degenerateWeight (weight r) = true) l ->
  exists us ms,
    sortedImportRecords l = us ++ ms /\
    Forall (fun r => weight r = degenerateWeight) us /\
    Forall (fun r => areImportWeightsSequential degenerateWeight (weight r) = true) ms.
Proof.
  unfold sortedImportRecords.
  induction l as [|x rest IH]; simpl; intros Hl.
  - exists [], []. repeat split; constructor.
  - inversion Hl as [|? ? Hx Hrest]; subst.
    destruct (IH Hrest) as (us & ms & Heq & Hus & Hms).
    rewrite Heq. destruct Hx as [Hx|Hx].
    + exists (x :: us), ms. repeat split; auto.
      apply insert_unmatched; auto.
      apply Forall_app. split.
      * eapply Forall_impl; [|exact Hus]. simpl; auto.
      * eapply Forall_impl; [|exact Hms]. simpl; auto.
    + exists us, (insert compareImportRecords x ms). repeat split; auto.
      * now apply insert_matched.
      * apply (Permutation_Forall (insert_perm compareImportRecords x ms)).
        now constructor.
Qed.

End UnmatchedFirst.

(** The degenerate weight comes strictly before every weight that comes out
    of a match. *)
Lemma degenerate_before_matched d n s i j w :
  0 <= i -> 0 <= j ->
  matchedImportWeight d n s i j = Normal w ->
  areImportWeightsSequential degenerateWeight w = true.
Proof.
  intros Hi Hj Hw.
  apply matchedImportWeight_shape in Hw as (Hg & Hp & Ht & Hn).
  apply areImportWeightsSequential_true.
  unfold getNumericImportWeight, degenerateWeight.
  cbn [group pattern type wname].
  destruct (Z.eq_dec (1000000 * group w + 1000 * pattern w + type w) 0) as [H0|H0].
  - right. split; [lia|]. apply string_ltb_empty. apply Hn. lia.
  - left. lia.
Qed.

(** ** Records built from declarations *)

Section BuilderFacts.

Variable isMatch : string -> string -> bool.
Variable groups : list (list string).

Lemma createImportRecord_fields importNode r :
  createImportRecord isMatch groups importNode = Normal r ->
  path r = source_value importNode /\ node r = importNode /\
  getImportWeight isMatch groups (defaultImport r) (namespaceImport r)
    (singleImports r) (path r) = Normal (weight r).
Proof.
  unfold createImportRecord. cbv zeta.
  destruct (getImportWeight isMatch groups _ _ _ _) as [w|e] eqn:Hw; simpl;
    [|discriminate].
  intros [= <-]. simpl. auto.
Qed.

Lemma mapM_Forall {A B : Type} (f : A -> completion B) (Q : B -> Prop) l rs :
  (forall a b, f a = Normal b -> Q b) ->
  mapM f l = Normal rs -> Forall Q rs.
Proof.
  intros HQ. revert rs; induction l as [|a rest IH]; simpl; intros rs.
  - intros [= <-]. constructor.
  - destruct (f a) as [b|] eqn:Hb; simpl; [|discriminate].
    destruct (mapM f rest) as [bs|]; simpl; [|discriminate].
    intros [= <-]. constructor; eauto.
Qed.

(** Whether a built record carries the degenerate weight is decided by its
    path alone. *)
Lemma createImportRecord_weight importNode r :
  createImportRecord isMatch groups importNode = Normal r ->
  (isUnmatched isMatch groups (path r) = true /\ weight r = degenerateWeight) \/
  (isUnmatched isMatch groups (path r) = false /\
   areImportWeightsSequential degenerateWeight (weight r) = true).
Proof.
  intros Hr. apply createImportRecord_fields in Hr as (_ & _ & Hw).
  destruct (isUnmatched isMatch groups (path r)) eqn:Hu.
  - left. split; [reflexivity|].
    rewrite (getImportWeight_unmatched _ _ _ _ _ _ Hu) in Hw. congruence.
  - right. split; [reflexivity|].
    destruct (getImportWeight_matched isMatch groups (defaultImport r)
                (namespaceImport r) (singleImports r) (path r) Hu)
      as (a & k & g & _ & _ & Heq).
    rewrite Heq in Hw.
    eapply degenerate_before_matched; [| |exact Hw]; lia.
Qed.

End BuilderFacts.

(** ** The order validator *)

Section ValidatorFacts.

Variable platform : string.

Local Open Scope list_scope.

Lemma LINE_BREAK_LENGTH_cases :
  LINE_BREAK_LENGTH platform = 1 \/ LINE_BREAK_LENGTH platform = 2.
Proof. unfold LINE_BREAK_LENGTH. destruct (platform =? "win32")%string; auto. Qed.

(** The walk over adjacent pairs, cut at one pair. *)
Lemma areImportRecordsCorrectlyGrouped_split pre a b post :
  areImportRecordsCorrectlyGrouped platform (pre ++ a :: b :: post) =
  areImportRecordsCorrectlyGrouped platform (pre ++ [a])
  && negb (isPairFlagged platform a b)
  && areImportRecordsCorrectlyGrouped platform (b :: post).
Proof.
  induction pre as [|p pre IH].
  - simpl. now destruct (isPairFlagged platform a b).
  - destruct pre as [|q pre].
    + simpl in *. destruct (isPairFlagged platform p a); [reflexivity|].
      exact IH.
    + change (areImportRecordsCorrectlyGrouped platform
                (p :: q :: (pre ++ a :: b :: post)) =
              areImportRecordsCorrectlyGrouped platform (p :: q :: (pre ++ [a]))
              && negb (isPairFlagged platform a b)
              && areImportRecordsCorrectlyGrouped platform (b :: post)).
      cbn [areImportRecordsCorrectlyGrouped].
      destruct (isPairFlagged platform p q); [reflexivity|].
      exact IH.
Qed.

Lemma flagged_pair_fails pre a b post :
  isPairFlagged platform a b = true ->
  areImportRecordsCorrectlyGrouped platform (pre ++ a :: b :: post) = false.
Proof.
  intros H. rewrite areImportRecordsCorrectlyGrouped_split, H. simpl.
  now rewrite andb_false_r.
Qed.

End ValidatorFacts.

(** * The claims *)

Local Open Scope list_scope.

(** C1: the validator is claimed to accept adjacent records whose weights
    are equal in group, pattern, type and name.  The code does the opposite:
    wherever two adjacent records have equal weights,
    [areImportWeightsSequential] answers [false] for the pair and
    [areImportRecordsCorrectlyGrouped] returns [false] for the whole list,
    although the comparator of [getFixedImportRecords] treats such records
    as ties. *)
Theorem equal_weights_are_flagged platform pre a b post :
  areImportWeightsEqual (weight a) (weight b) = true ->
  compareImportRecords a b = 0 /\
  areImportRecordsCorrectlyGrouped platform (pre ++ a :: b :: post) = false.
Proof.
  intros He. split.
  - unfold compareImportRecords. cbv zeta. now rewrite He.
  - apply flagged_pair_fails. unfold isPairFlagged.
    now rewrite (equal_not_sequential _ _ He).
Qed.

Lemma equal_weights_are_flagged_witness :
  compareImportRecords recordRelativeA recordRelativeB = 0 /\
  areImportRecordsCorrectlyGrouped "linux"
    ([] ++ recordRelativeA :: recordRelativeB :: []) = false.
Proof.
  apply (equal_weights_are_flagged "linux" [] recordRelativeA recordRelativeB []).
  reflexivity.
Defined.

(** The shape of the default-plus-named form: the named imports are joined
    by a bare comma. *)
Lemma render_default_and_named r :
  truthy (defaultImport r) = true -> truthy (namespaceImport r) = false ->
  singleImports r <> [] ->
  getImportRecordAsCodeString r =
  ("import " ++ toString (defaultImport r) ++ ", { "
     ++ String.concat "," (map getSingleImportAsCodeString (singleImports r))
     ++ " } from '" ++ path r ++ "';")%string.
Proof.
  intros Hd Hn Hs. unfold getImportRecordAsCodeString. cbv zeta.
  rewrite Hd, Hn.
  assert (Hlen : (0 <? Z.of_nat (List.length (singleImports r))) = true).
  { apply Z.ltb_lt. destruct (singleImports r); [congruence|]. simpl. lia. }
  rewrite Hlen. reflexivity.
Qed.

(** C2: a record with a default import and named imports is claimed to be
    rendered with the named imports separated by a comma and a space.  On
    the record of the function's own docstring the code joins them with a
    bare comma, while the named-only form of the same record has the
    space. *)
Theorem default_and_named_joined_without_space :
  getImportRecordAsCodeString recordReactComponent =
    "import React, { Component,createRef } from 'react';"%string /\
  getSingleImportRecordAsCodeString recordReactComponent =
    "import { Component, createRef } from 'react';"%string.
Proof. split; reflexivity. Qed.

(** C3: regenerating and reading the block back is claimed to give a block
    the validator accepts.  For two declarations with unmatched paths the
    regenerated text is [import a from './a';] and [import b from './b';] on
    consecutive lines; the declarations of exactly that text
    ([nodeRelativeA] at 0..20, [nodeRelativeB] at 21..41) are rejected by
    the validator, and the rule reports them with a fix equal to the text
    that is already there. *)
Theorem regenerated_block_is_flagged_again isMatch groups platform :
  isUnmatched isMatch groups "./a" = true ->
  isUnmatched isMatch groups "./b" = true ->
  let text := ("import a from './a';" ++ LF ++ "import b from './b';")%string in
  mapM (createImportRecord isMatch groups) [nodeRelativeA; nodeRelativeB]
    = Normal [recordRelativeA; recordRelativeB] /\
  getFixedImportRecords [recordRelativeA; recordRelativeB] = text /\
  areImportRecordsCorrectlyGrouped platform [recordRelativeA; recordRelativeB]
    = false /\
  Program isMatch groups platform [nodeRelativeA; nodeRelativeB] =
    Normal (Some {| report_start := 0; report_end := 41;
                    message := "Imports are in the wrong order";
                    fix_range := (0, 41);
                    fix_text := text |}).
Proof.
  intros Ha Hb text.
  assert (Hrec : mapM (createImportRecord isMatch groups)
                   [nodeRelativeA; nodeRelativeB]
                 = Normal [recordRelativeA; recordRelativeB]).
  { simpl. unfold createImportRecord. simpl.
    rewrite (getImportWeight_unmatched _ _ _ _ _ _ Ha).
    rewrite (getImportWeight_unmatched _ _ _ _ _ _ Hb). reflexivity. }
  assert (Hval : areImportRecordsCorrectlyGrouped platform
                   [recordRelativeA; recordRelativeB] = false).
  { apply (flagged_pair_fails platform [] recordRelativeA recordRelativeB []).
    reflexivity. }
  repeat split; auto.
  unfold Program.
  change (filter isImportNode [nodeRelativeA; nodeRelativeB])
    with [nodeRelativeA; nodeRelativeB].
  cbv beta iota zeta. rewrite Hrec. cbn [bind]. rewrite Hval. reflexivity.
Qed.

Lemma regenerated_block_is_flagged_again_witness :
  getFixedImportRecords [recordRelativeA; recordRelativeB]
    = ("import a from './a';" ++ LF ++ "import b from './b';")%string /\
  areImportRecordsCorrectlyGrouped "linux" [recordRelativeA; recordRelativeB]
    = false.
Proof.
  destruct (regenerated_block_is_flagged_again sampleIsMatch
              configuration.groups "linux" eq_refl eq_refl)
    as (_ & H1 & H2 & _).
  split; [exact H1 | exact H2].
Defined.

(** A second way in which the regenerated block is rejected: the groups are
    separated by two line feeds, which is less than two line-break lengths
    when [process.platform] is win32.  The block of the end-to-end example
    (groups ['react'] and ['utils/**']) is accepted elsewhere and reported
    again on win32. *)
Lemma regenerated_block_is_flagged_on_win32 :
  exists importRecords,
    mapM (createImportRecord sampleIsMatch [["react"]; ["utils/**"]])
         [nodeReact 0 26; nodeHelperB 28 62] = Normal importRecords /\
    getFixedImportRecords importRecords =
      ("import React from 'react';" ++ LF ++ LF
         ++ "import { helperB } from 'utils/b';")%string /\
    areImportRecordsCorrectlyGrouped "linux" importRecords = true /\
    areImportRecordsCorrectlyGrouped "win32" importRecords = false.
Proof. eexists. repeat split; reflexivity. Qed.

(** C4: grouping gap rule.  For adjacent records [a], [b] with the group
    index of [b] strictly greater: the list is rejected when the gap between
    the end of [a] and the start of [b] is below two line-break lengths, in
    particular when it is a single line break; when the gap is at least two
    line-break lengths and the weights are sequential, the pair is not
    flagged and the verdict is the one of the rest of the walk. *)
Theorem grouping_gap_rule platform pre a b post :
  group (weight a) < group (weight b) ->
  let gap := node_start (node b) - node_end (node a) in
  (gap < LINE_BREAK_LENGTH platform * 2 ->
   areImportRecordsCorrectlyGrouped platform (pre ++ a :: b :: post) = false) /\
  (gap = LINE_BREAK_LENGTH platform ->
   areImportRecordsCorrectlyGrouped platform (pre ++ a :: b :: post) = false) /\
  (LINE_BREAK_LENGTH platform * 2 <= gap ->
   areImportWeightsSequential (weight a) (weight b) = true ->
   isPairFlagged platform a b = false /\
   areImportRecordsCorrectlyGrouped platform (pre ++ a :: b :: post) =
   areImportRecordsCorrectlyGrouped platform (pre ++ [a])
   && areImportRecordsCorrectlyGrouped platform (b :: post)).
Proof.
  intros Hg gap.
  assert (Hnear : gap < LINE_BREAK_LENGTH platform * 2 ->
                  isPairFlagged platform a b = true).
  { intros Hgap. unfold isPairFlagged.
    apply Z.ltb_lt in Hg, Hgap. fold gap. rewrite Hg, Hgap.
    now rewrite orb_true_r. }
  split; [|split].
  - intros Hgap. apply flagged_pair_fails. auto.
  - intros Hgap. apply flagged_pair_fails. apply Hnear.
    destruct (LINE_BREAK_LENGTH_cases platform); lia.
  - intros Hgap Hseq.
    assert (Hfar : isPairFlagged platform a b = false).
    { unfold isPairFlagged. fold gap. rewrite Hseq.
      apply Z.ltb_ge in Hgap. rewrite Hgap. now rewrite andb_false_r. }
    split; [assumption|].
    rewrite areImportRecordsCorrectlyGrouped_split, Hfar. simpl.
    now rewrite andb_true_r.
Qed.

Lemma grouping_gap_rule_witness :
  areImportRecordsCorrectlyGrouped "linux"
    ([] ++ recordReactComponent :: recordHelperB 52 86 :: []) = false /\
  areImportRecordsCorrectlyGrouped "linux"
    ([] ++ recordReactComponent :: recordHelperB 53 87 :: []) = true.
Proof.
  split.
  - destruct (grouping_gap_rule "linux" [] recordReactComponent
                (recordHelperB 52 86) []) as (H & _); [simpl; lia|].
    apply H. vm_compute. reflexivity.
  - destruct (grouping_gap_rule "linux" [] recordReactComponent
                (recordHelperB 53 87) []) as (_ & _ & H); [simpl; lia|].
    destruct H as [_ H]; [vm_compute; discriminate | reflexivity |].
    rewrite H. reflexivity.
Defined.

(** C5: first match wins.  When [(i, j)] is the first matching pair of the
    configuration in scan order, the weight is the one built for [(i, j)]
    and no later pair is consulted: a record that names a binding is
    weighted with group [i] and pattern [j].  In particular, with the single
    group ['a/*', 'a/b'] and a matcher for which ['a/*'] matches ['a/b'],
    the path ['a/b'] gets pattern index 0. *)
Theorem first_match_wins isMatch :
  (forall groups d n s path i j,
      isFirstMatch isMatch groups path i j ->
      getImportWeight isMatch groups d n s path =
        matchedImportWeight d n s (Z.of_nat i) (Z.of_nat j) /\
      (hasSortName d n s = true ->
       exists w, getImportWeight isMatch groups d n s path = Normal w /\
                 group w = Z.of_nat i /\ pattern w = Z.of_nat j)) /\
  (forall d n s,
      isMatch "a/b" "a/*" = true ->
      hasSortName d n s = true ->
      exists w, getImportWeight isMatch [["a/*"; "a/b"]] d n s "a/b" = Normal w /\
                group w = 0 /\ pattern w = 0).
Proof.
  split.
  - intros groups d n s path i j Hfirst.
    rewrite (getImportWeight_first_match _ _ d n s _ _ _ Hfirst).
    split; [reflexivity|]. intros Hname.
    destruct (matchedImportWeight_named d n s (Z.of_nat i) (Z.of_nat j) Hname)
      as (w & Hw & Hg & Hp & _).
    exists w. auto.
  - intros d n s Hm Hname.
    unfold getImportWeight. simpl. rewrite Hm.
    destruct (matchedImportWeight_named d n s 0 0 Hname) as (w & Hw & Hg & Hp & _).
    exists w. auto.
Qed.

Lemma first_match_wins_witness :
  (exists w,
      getImportWeight sampleIsMatch [["a/*"; "a/b"]] None None
        [ {| name := "x"; alias := "y" |} ] "a/b" = Normal w /\
      group w = Z.of_nat 0 /\ pattern w = Z.of_nat 0) /\
  (exists w,
      getImportWeight sampleIsMatch [["a/*"; "a/b"]] (Some "X") None [] "a/b"
        = Normal w /\
      group w = 0 /\ pattern w = 0).
Proof.
  split.
  - assert (Hfirst : isFirstMatch sampleIsMatch [["a/*"; "a/b"]] "a/b" 0 0).
    { split.
      - exists ["a/*"; "a/b"], "a/*". repeat split.
      - intros [|i'] j' g' pat' _ _ _; [right; lia | left; lia]. }
    destruct (proj1 (first_match_wins sampleIsMatch) [["a/*"; "a/b"]] None None
                [ {| name := "x"; alias := "y" |} ] "a/b" 0%nat 0%nat Hfirst)
      as [_ H].
    exact (H eq_refl).
  - apply (proj2 (first_match_wins sampleIsMatch)); reflexivity.
Defined.

(** C6: unmatched paths.  A path that no configured pattern matches gets the
    weight (0, 0, 0, ''), whatever the specifiers, and building the record
    does not throw; in the sorted list that the regenerator renders, the
    records with unmatched paths all come before the records with matched
    paths. *)
Theorem unmatched_path_convention isMatch groups :
  (forall d n s path,
      isUnmatched isMatch groups path = true ->
      exists w, getImportWeight isMatch groups d n s path = Normal w /\
                group w = 0 /\ pattern w = 0 /\ type w = 0 /\ wname w = "") /\
  (forall importNode,
      isUnmatched isMatch groups (source_value importNode) = true ->
      exists r, createImportRecord isMatch groups importNode = Normal r /\
                weight r = degenerateWeight) /\
  (forall importNodes importRecords,
      mapM (createImportRecord isMatch groups) importNodes = Normal importRecords ->
      exists unmatched matched,
        sortedImportRecords importRecords = unmatched ++ matched /\
        Forall (fun r => isUnmatched isMatch groups (path r) = true) unmatched /\
        Forall (fun r => isUnmatched isMatch groups (path r) = false) matched /\
        (forall u m, In u unmatched -> In m matched ->
                     compareImportRecords u m = -1 /\
                     compareImportRecords m u = 1)).
Proof.
  split; [|split].
  - intros d n s path Hu. exists degenerateWeight.
    rewrite (getImportWeight_unmatched _ _ d n s _ Hu). repeat split.
  - intros importNode Hu. unfold createImportRecord. cbv zeta.
    rewrite (getImportWeight_unmatched _ _ _ _ _ _ Hu). cbn [bind].
    eexists. split; reflexivity.
  - intros importNodes importRecords Hrec.
    pose proof (mapM_Forall _ _ _ _
                  (createImportRecord_weight isMatch groups) Hrec) as Hall.
    assert (Hshape : Forall (fun r =>
              weight r = degenerateWeight \/
              areImportWeightsSequential degenerateWeight (weight r) = true)
              importRecords).
    { eapply Forall_impl; [|exact Hall]. simpl. intros r [[_ H]|[_ H]]; auto. }
    destruct (sortedImportRecords_unmatched_first _ Hshape)
      as (us & ms & Heq & Hus & Hms).
    assert (Hsorted : Forall (fun r =>
              (isUnmatched isMatch groups (path r) = true /\
               weight r = degenerateWeight) \/
              (isUnmatched isMatch groups (path r) = false /\
               areImportWeightsSequential degenerateWeight (weight r) = true))
              (us ++ ms)).
    { rewrite <- Heq.
      apply (Permutation_Forall (Array_sort_perm compareImportRecords _)).
      exact Hall. }
    apply Forall_app in Hsorted as [Hus' Hms'].
    exists us, ms. rewrite Forall_forall in Hus, Hms, Hus', Hms'.
    split; [exact Heq|]. split; [|split].
    + apply Forall_forall.
      intros r Hr. destruct (Hus' r Hr) as [[H _]|[_ H]]; [assumption|].
      rewrite (Hus r Hr) in H. now rewrite sequential_irrefl in H.
    + apply Forall_forall.
      intros r Hr. destruct (Hms' r Hr) as [[_ H]|[H _]]; [|assumption].
      pose proof (Hms r Hr) as Hm. rewrite H in Hm.
      now rewrite sequential_irrefl in Hm.
    + intros u m Hu Hm. split.
      * unfold compareImportRecords. cbv zeta.
        rewrite (Hus u Hu), (Hms m Hm).
        destruct (areImportWeightsEqual degenerateWeight (weight m)) eqn:He;
          [|reflexivity].
        apply equal_not_sequential in He. rewrite (Hms m Hm) in He.
        discriminate.
      * apply compare_matched_unmatched; auto.
Qed.

Lemma unmatched_path_convention_witness :
  exists r,
    createImportRecord sampleIsMatch configuration.groups (mkImport 0 15 [] "./a")
      = Normal r /\
    weight r = degenerateWeight.
Proof.
  apply (proj1 (proj2 (unmatched_path_convention sampleIsMatch
                         configuration.groups))).
  reflexivity.
Defined.

(** C7, as stated: two records with unmatched paths have the same weight,
    the sort keeps them in the order in which they come, and the two orders
    of the same two records give two different texts. *)
Lemma input_order_changes_output :
  Permutation [recordRelativeA; recordRelativeB]
              [recordRelativeB; recordRelativeA] /\
  mapM (createImportRecord sampleIsMatch configuration.groups)
       [nodeRelativeA; nodeRelativeB]
    = Normal [recordRelativeA; recordRelativeB] /\
  getFixedImportRecords [recordRelativeA; recordRelativeB]
    = ("import a from './a';" ++ LF ++ "import b from './b';")%string /\
  getFixedImportRecords [recordRelativeB; recordRelativeA]
    = ("import b from './b';" ++ LF ++ "import a from './a';")%string /\
  getFixedImportRecords [recordRelativeA; recordRelativeB]
    <> getFixedImportRecords [recordRelativeB; recordRelativeA].
Proof.
  split; [apply perm_swap|].
  repeat split; try reflexivity.
  vm_compute. discriminate.
Qed.

(** C7, amended: when no two records of the list share their ordering key
    (scalar weight and name), the regenerated text is the same for every
    permutation of the list. *)
Theorem regeneration_ignores_input_order L L' :
  distinctKeys L = true ->
  Permutation L L' ->
  getFixedImportRecords L = getFixedImportRecords L'.
Proof.
  intros Hd Hperm. unfold getFixedImportRecords.
  now rewrite (sortedImportRecords_permutation L L' Hd Hperm).
Qed.

Lemma regeneration_ignores_input_order_witness :
  getFixedImportRecords [recordHelperB 0 34; recordReactComponent]
  = getFixedImportRecords [recordReactComponent; recordHelperB 0 34].
Proof.
  apply regeneration_ignores_input_order; [reflexivity | apply perm_swap].
Defined.

(** Bounds on a weight computed against a configuration whose groups have
    at most [bound] patterns. *)
Lemma getImportWeight_bounds isMatch groups bound d n s path w :
  Forall (fun g => (List.length g <= bound)%nat) groups ->
  getImportWeight isMatch groups d n s path = Normal w ->
  0 <= group w <= Z.of_nat (List.length groups) /\
  0 <= pattern w <= Z.of_nat bound /\
  0 <= type w <= 2.
Proof.
  intros Hb Hw.
  destruct (isUnmatched isMatch groups path) eqn:Hu.
  - rewrite (getImportWeight_unmatched _ _ d n s _ Hu) in Hw.
    injection Hw as <-. simpl. lia.
  - destruct (getImportWeight_matched isMatch groups d n s path Hu)
      as (a & k & g & Ha & Hk & Heq).
    rewrite Heq in Hw.
    apply matchedImportWeight_shape in Hw as (-> & -> & Ht & _).
    assert (Hlen : (a < List.length groups)%nat).
    { apply nth_error_Some. congruence. }
    rewrite Forall_forall in Hb.
    pose proof (Hb g (nth_error_In _ _ Ha)). lia.
Qed.

(** With pattern and type contributions below their bases, the scalar key
    compares as the triple does. *)
Lemma numeric_compare_lex a b :
  0 <= pattern a < 1000 -> 0 <= type a < 1000 ->
  0 <= pattern b < 1000 -> 0 <= type b < 1000 ->
  (getNumericImportWeight a ?= getNumericImportWeight b) = lexCompare a b.
Proof.
  intros Hpa Hta Hpb Htb. unfold lexCompare, getNumericImportWeight.
  destruct (Z.compare_spec (group a) (group b)) as [Hg|Hg|Hg].
  - destruct (Z.compare_spec (pattern a) (pattern b)) as [Hp|Hp|Hp].
    + rewrite Hg, Hp.
      destruct (Z.compare_spec (type a) (type b)) as [Ht|Ht|Ht].
      * apply Z.compare_eq_iff. lia.
      * apply Z.compare_lt_iff. lia.
      * apply Z.compare_gt_iff. lia.
    + apply Z.compare_lt_iff. lia.
    + apply Z.compare_gt_iff. lia.
  - apply Z.compare_lt_iff. lia.
  - apply Z.compare_gt_iff. lia.
Qed.

(** C8: for any two weights computed against the shipped configuration,
    the scalar key orders them exactly as the lexicographic order on
    (group, pattern, type) does, the type contribution staying below 1000
    and the pattern and type contributions together below 1000000. *)
Theorem numeric_key_is_lexicographic isMatch d n s path d' n' s' path' wa wb :
  getImportWeight isMatch configuration.groups d n s path = Normal wa ->
  getImportWeight isMatch configuration.groups d' n' s' path' = Normal wb ->
  (getNumericImportWeight wa ?= getNumericImportWeight wb) = lexCompare wa wb /\
  0 <= type wa < 1000 /\ 0 <= 1000 * pattern wa + type wa < 1000000 /\
  0 <= type wb < 1000 /\ 0 <= 1000 * pattern wb + type wb < 1000000.
Proof.
  intros Ha Hb.
  assert (Hcfg : Forall (fun g => (List.length g <= 6)%nat) configuration.groups).
  { unfold configuration.groups. repeat constructor. }
  apply (getImportWeight_bounds _ _ 6 _ _ _ _ _ Hcfg) in Ha as (_ & Hpa & Hta).
  apply (getImportWeight_bounds _ _ 6 _ _ _ _ _ Hcfg) in Hb as (_ & Hpb & Htb).
  split; [apply numeric_compare_lex; lia | lia].
Qed.

Lemma numeric_key_is_lexicographic_witness :
  (getNumericImportWeight
     {| group := 0; pattern := 3; type := 0; wname := "createStore" |}
   ?= getNumericImportWeight
        {| group := 1; pattern := 0; type := 2; wname := "log" |})
  = lexCompare
      {| group := 0; pattern := 3; type := 0; wname := "createStore" |}
      {| group := 1; pattern := 0; type := 2; wname := "log" |}.
Proof.
  apply (numeric_key_is_lexicographic sampleIsMatch
           (Some "createStore") None [] "redux"
           None None [ {| name := "log"; alias := "log" |} ] "sr-log");
    reflexivity.
Defined.

(** C9: a record with no default import, no namespace import and no named
    import is rendered as the empty string. *)
Theorem malformed_record_renders_empty r :
  truthy (defaultImport r) = false ->
  truthy (namespaceImport r) = false ->
  singleImports r = [] ->
  getImportRecordAsCodeString r = "".
Proof.
  intros Hd Hn Hs. unfold getImportRecordAsCodeString. cbv zeta.
  now rewrite Hd, Hn, Hs.
Qed.

Lemma malformed_record_renders_empty_witness :
  getImportRecordAsCodeString recordEmpty = "".
Proof.
  apply malformed_record_renders_empty; reflexivity.
Defined.

(** C10: record construction is claimed to be total.  For a declaration
    without specifiers whose path matches a configured pattern,
    [getImportWeight] reads [singleImports[0].alias] of an empty array:
    [createImportRecord] throws a TypeError and so does the pass over a
    file that contains the declaration alone. *)
Theorem side_effect_import_throws isMatch groups platform importNode :
  specifiers importNode = [] ->
  isUnmatched isMatch groups (source_value importNode) = false ->
  createImportRecord isMatch groups importNode = Throw TypeError /\
  (isImportNode importNode = true ->
   Program isMatch groups platform [importNode] = Throw TypeError).
Proof.
  intros Hs Hu.
  assert (Hthrow : createImportRecord isMatch groups importNode = Throw TypeError).
  { unfold createImportRecord. cbv zeta. rewrite Hs. simpl.
    destruct (getImportWeight_matched isMatch groups None None []
                (source_value importNode) Hu) as (a & k & g & _ & _ & Heq).
    rewrite Heq. reflexivity. }
  split; [assumption|].
  intros Hi. unfold Program. simpl. rewrite Hi. simpl.
  now rewrite Hthrow.
Qed.

Lemma side_effect_import_throws_witness :
  createImportRecord sampleIsMatch configuration.groups nodeSideEffect
    = Throw TypeError /\
  Program sampleIsMatch configuration.groups "linux" [nodeSideEffect]
    = Throw TypeError.
Proof.
  destruct (side_effect_import_throws sampleIsMatch configuration.groups
              "linux" nodeSideEffect eq_refl eq_refl) as [H1 H2].
  split; [exact H1 | exact (H2 eq_refl)].
Defined.

(** * Further properties of the two rules *)

(** ** Helper facts *)


Lemma sameKey_refl w : sameKey w w = true.
Proof. unfold sameKey. now rewrite Z.eqb_refl, String.eqb_refl. Qed.

Lemma distinctKeys_NoDup l : distinctKeys l = true -> NoDup l.
Proof.
  induction l as [|r rest IH]; simpl; [constructor|].
  rewrite andb_true_iff, forallb_forall. intros [Hr Hrest].
  constructor; [|auto].
  intros Hin. apply Hr in Hin. now rewrite sameKey_refl in Hin.
Qed.

Section AcceptedFacts.

Variable platform : string.

Lemma accepted_cons a b rest :
  areImportRecordsCorrectlyGrouped platform (a :: b :: rest) = true <->
  isPairFlagged platform a b = false /\
  areImportRecordsCorrectlyGrouped platform (b :: rest) = true.
Proof.
  cbn [areImportRecordsCorrectlyGrouped].
  destruct (isPairFlagged platform a b); split; try tauto.
  - discriminate.
  - intros [? _]; discriminate.
Qed.

Lemma isPairFlagged_false a b :
  isPairFlagged platform a b = false <->
  areImportWeightsSequential (weight a) (weight b) = true /\
  (group (weight a) < group (weight b) ->
   LINE_BREAK_LENGTH platform * 2 <= node_start (node b) - node_end (node a)).
Proof.
  unfold isPairFlagged.
  rewrite orb_false_iff, negb_false_iff, andb_false_iff, Z.ltb_ge, Z.ltb_ge.
  split; intros [Hs Hg]; (split; [assumption|]).
  - intros Hlt. destruct Hg; [lia|assumption].
  - destruct (Z.lt_ge_cases (group (weight a)) (group (weight b))); auto.
Qed.

Lemma accepted_sorted l :
  areImportRecordsCorrectlyGrouped platform l = true ->
  StronglySorted precedes l.
Proof.
  induction l as [|a [|b rest] IH]; intros Hacc.
  - constructor.
  - repeat constructor.
  - apply accepted_cons in Hacc as [Hab Hrest].
    apply isPairFlagged_false in Hab as [Hab _].
    specialize (IH Hrest).
    constructor; [assumption|].
    constructor; [exact Hab|].
    apply StronglySorted_inv in IH as [_ Hb].
    eapply Forall_impl; [|exact Hb].
    intros c Hbc. unfold precedes in *. eapply sequential_trans; eassumption.
Qed.

End AcceptedFacts.

Lemma precedes_distinctKeys l :
  StronglySorted precedes l -> distinctKeys l = true.
Proof.
  induction l as [|a rest IH]; intros Hs; [reflexivity|].
  apply StronglySorted_inv in Hs as [Hrest Ha]. simpl.
  rewrite (IH Hrest), andb_true_r.
  apply forallb_forall. intros b Hb.
  rewrite Forall_forall in Ha. specialize (Ha b Hb). unfold precedes in Ha.
  destruct (sameKey (weight a) (weight b)) eqn:Hk; [|reflexivity].
  apply sameKey_not_sequential in Hk. congruence.
Qed.

Lemma sort_of_sorted l :
  StronglySorted precedes l -> sortedImportRecords l = l.
Proof.
  unfold sortedImportRecords.
  induction l as [|a rest IH]; intros Hs; [reflexivity|].
  apply StronglySorted_inv in Hs as [Hrest Ha]. simpl. rewrite (IH Hrest).
  destruct rest as [|b rest']; [reflexivity|]. simpl.
  inversion Ha as [|? ? Hab _]; subst.
  assert (Hle : compareImportRecords a b <= 0).
  { apply compareImportRecords_le. now right. }
  apply Z.leb_le in Hle. now rewrite Hle.
Qed.

Lemma sequential_group_le a b :
  inKeyRange a -> inKeyRange b ->
  areImportWeightsSequential a b = true -> group a <= group b.
Proof.
  unfold inKeyRange, getNumericImportWeight.
  intros Ha Hb Hs. apply areImportWeightsSequential_true in Hs.
  unfold getNumericImportWeight in Hs. lia.
Qed.

(** ** The order on weights and the scalar key *)

(** X1: [areImportWeightsSequential] is a strict order on weights
    (irreflexive, asymmetric, transitive), and two weights that are
    sequential in neither direction have the same scalar weight and the
    same name. *)
Theorem sequential_is_strict_order :
  (forall a, areImportWeightsSequential a a = false) /\
  (forall a b, areImportWeightsSequential a b = true ->
               areImportWeightsSequential b a = false) /\
  (forall a b c, areImportWeightsSequential a b = true ->
                 areImportWeightsSequential b c = true ->
                 areImportWeightsSequential a c = true) /\
  (forall a b, areImportWeightsSequential a b = false ->
               areImportWeightsSequential b a = false ->
               getNumericImportWeight a = getNumericImportWeight b /\
               wname a = wname b).
Proof.
  split; [exact sequential_irrefl|].
  split; [exact sequential_asym|].
  split; [exact sequential_trans|].
  intros a b Hab Hba. pose proof (sequential_total a b Hab Hba) as Hk.
  unfold sameKey in Hk.
  now rewrite andb_true_iff, Z.eqb_eq, String.eqb_eq in Hk.
Qed.

Lemma sequential_is_strict_order_witness :
  areImportWeightsSequential
    {| group := 0; pattern := 3; type := 0; wname := "createStore" |}
    {| group := 0; pattern := 0; type := 0; wname := "React" |} = false.
Proof.
  apply (proj1 (proj2 sequential_is_strict_order)
           {| group := 0; pattern := 0; type := 0; wname := "React" |}).
  reflexivity.
Defined.

(** X2: the scalar key is not injective beyond its bases.  A weight with
    pattern index [p + 1000] in group [g] and the weight with pattern index
    [p] in group [g + 1] have the same scalar weight; with the same name they
    are not equal and sequential in neither direction, and the comparator
    of the sort answers 1 for both orders of two such records. *)
Theorem scalar_key_collides g p t n :
  let a := {| group := g; pattern := p + 1000; type := t; wname := n |} in
  let b := {| group := g + 1; pattern := p; type := t; wname := n |} in
  getNumericImportWeight a = getNumericImportWeight b /\
  areImportWeightsEqual a b = false /\
  areImportWeightsSequential a b = false /\
  areImportWeightsSequential b a = false /\
  (forall ra rb, weight ra = a -> weight rb = b ->
                 compareImportRecords ra rb = 1 /\
                 compareImportRecords rb ra = 1).
Proof.
  intros a b.
  assert (Hn : getNumericImportWeight a = getNumericImportWeight b).
  { unfold getNumericImportWeight, a, b. cbn [group pattern type]. lia. }
  assert (Hk : sameKey a b = true).
  { unfold sameKey. rewrite Hn, Z.eqb_refl. apply String.eqb_refl. }
  assert (Hab : areImportWeightsSequential a b = false)
    by now apply sameKey_not_sequential.
  assert (Hba : areImportWeightsSequential b a = false).
  { apply sameKey_not_sequential. now rewrite sameKey_sym. }
  assert (He : areImportWeightsEqual a b = false).
  { unfold areImportWeightsEqual, a, b. cbn [group pattern type wname].
    replace (g =? g + 1) with false; [reflexivity|].
    symmetry. apply Z.eqb_neq. lia. }
  assert (He' : areImportWeightsEqual b a = false).
  { unfold areImportWeightsEqual, a, b. cbn [group pattern type wname].
    replace (g + 1 =? g) with false; [reflexivity|].
    symmetry. apply Z.eqb_neq. lia. }
  repeat split; auto.
  - unfold compareImportRecords. cbv zeta. rewrite H, H0. now rewrite He, Hab.
  - unfold compareImportRecords. cbv zeta. rewrite H, H0. now rewrite He', Hba.
Qed.

(** X3: while the pattern and type components stay below 1000,
    [areImportWeightsSequential] is the strict lexicographic order on
    (group, pattern, type, name). *)
Theorem sequential_is_lexicographic a b :
  inKeyRange a -> inKeyRange b ->
  areImportWeightsSequential a b = lexBefore a b.
Proof.
  intros (_ & Hpa & Hta) (_ & Hpb & Htb).
  unfold areImportWeightsSequential, lexBefore. cbv zeta.
  rewrite <- (numeric_compare_lex a b Hpa Hta Hpb Htb).
  destruct (Z.compare_spec (getNumericImportWeight a) (getNumericImportWeight b))
    as [He|Hl|Hg].
  - rewrite He, Z.ltb_irrefl, Z.eqb_refl. reflexivity.
  - apply Z.ltb_lt in Hl. now rewrite Hl.
  - replace (getNumericImportWeight a <? getNumericImportWeight b) with false
      by (symmetry; apply Z.ltb_ge; lia).
    replace (getNumericImportWeight a =? getNumericImportWeight b) with false
      by (symmetry; apply Z.eqb_neq; lia).
    reflexivity.
Qed.

Lemma sequential_is_lexicographic_witness :
  areImportWeightsSequential
    {| group := 0; pattern := 3; type := 0; wname := "createStore" |}
    {| group := 1; pattern := 0; type := 2; wname := "log" |}
  = lexBefore
      {| group := 0; pattern := 3; type := 0; wname := "createStore" |}
      {| group := 1; pattern := 0; type := 2; wname := "log" |}.
Proof.
  apply sequential_is_lexicographic; unfold inKeyRange; simpl; lia.
Defined.

Lemma scalar_key_collides_witness :
  let ra :=
    {| defaultImport := Some "x"; namespaceImport := None; singleImports := [];
       path := "p";
       weight := {| group := 0; pattern := 0 + 1000; type := 0; wname := "x" |};
       node := mkImport 0 20 [] "p" |} in
  let rb :=
    {| defaultImport := Some "x"; namespaceImport := None; singleImports := [];
       path := "q";
       weight := {| group := 0 + 1; pattern := 0; type := 0; wname := "x" |};
       node := mkImport 21 41 [] "q" |} in
  compareImportRecords ra rb = 1 /\ compareImportRecords rb ra = 1.
Proof.
  intros ra rb.
  exact (proj2 (proj2 (proj2 (proj2 (scalar_key_collides 0 0 0 "x"))))
           ra rb eq_refl eq_refl).
Defined.

(** ** The order validator *)

(** X4: the validator accepts a list exactly when every record and its
    successor are sequential and, where the group index increases, lie at
    least two line-break lengths apart; a list of fewer than two records is
    always accepted. *)
Theorem validator_checks_every_adjacent_pair platform l :
  areImportRecordsCorrectlyGrouped platform l = true <->
  (forall i a b,
      nth_error l i = Some a -> nth_error l (S i) = Some b ->
      areImportWeightsSequential (weight a) (weight b) = true /\
      (group (weight a) < group (weight b) ->
       LINE_BREAK_LENGTH platform * 2 <= node_start (node b) - node_end (node a))).
Proof.
  induction l as [|a [|b rest] IH].
  - split; [|reflexivity]. intros _ [|i] x y; discriminate.
  - split; [|reflexivity]. intros _ [|[|i]] x y; discriminate.
  - rewrite accepted_cons, IH, isPairFlagged_false. split.
    + intros [Hab Hrest] [|i] x y.
      * simpl. intros [= <-] [= <-]. exact Hab.
      * intros Hx Hy. exact (Hrest i x y Hx Hy).
    + intros H. split.
      * exact (H 0%nat a b eq_refl eq_refl).
      * intros i x y Hx Hy. exact (H (S i) x y Hx Hy).
Qed.

Lemma validator_checks_every_adjacent_pair_witness :
  areImportWeightsSequential (weight recordReactComponent)
    (weight (recordHelperB 53 87)) = true /\
  (group (weight recordReactComponent) < group (weight (recordHelperB 53 87)) ->
   LINE_BREAK_LENGTH "linux" * 2 <=
   node_start (node (recordHelperB 53 87)) - node_end (node recordReactComponent)).
Proof.
  apply (proj1 (validator_checks_every_adjacent_pair "linux"
                  [recordReactComponent; recordHelperB 53 87])
           eq_refl 0%nat); reflexivity.
Defined.

(** X5: in a list the validator accepts, every record is sequential to
    every later record, not only to its successor, and no two records share
    their ordering key. *)
Theorem accepted_list_is_strictly_sorted platform l :
  areImportRecordsCorrectlyGrouped platform l = true ->
  StronglySorted precedes l /\ distinctKeys l = true.
Proof.
  intros Hacc. pose proof (accepted_sorted platform l Hacc) as Hs.
  split; [assumption | now apply precedes_distinctKeys].
Qed.

Lemma accepted_list_is_strictly_sorted_witness :
  StronglySorted precedes [recordReactComponent; recordHelperB 53 87] /\
  distinctKeys [recordReactComponent; recordHelperB 53 87] = true.
Proof.
  apply (accepted_list_is_strictly_sorted "linux"). reflexivity.
Defined.

(** X6: the regenerator leaves an accepted list in its order: the sort is
    the identity on a list the validator accepts, so the replacement text
    lists the records as the file has them. *)
Theorem accepted_list_is_not_reordered platform l :
  areImportRecordsCorrectlyGrouped platform l = true ->
  sortedImportRecords l = l /\
  getFixedImportRecords l = join LF (codeStrings l).
Proof.
  intros Hacc.
  pose proof (sort_of_sorted l (accepted_sorted platform l Hacc)) as Hs.
  split; [assumption|]. unfold getFixedImportRecords. now rewrite Hs.
Qed.

Lemma accepted_list_is_not_reordered_witness :
  sortedImportRecords [recordReactComponent; recordHelperB 53 87]
    = [recordReactComponent; recordHelperB 53 87] /\
  getFixedImportRecords [recordReactComponent; recordHelperB 53 87]
    = join LF (codeStrings [recordReactComponent; recordHelperB 53 87]).
Proof.
  apply (accepted_list_is_not_reordered "linux"). reflexivity.
Defined.

(** X7: in an accepted list whose weights stay inside the ranges of the
    scalar key, the group index never decreases along the list: the records
    of one group are consecutive. *)
Theorem accepted_list_has_contiguous_groups platform l :
  Forall (fun r => inKeyRange (weight r)) l ->
  areImportRecordsCorrectlyGrouped platform l = true ->
  StronglySorted (fun a b => group (weight a) <= group (weight b)) l.
Proof.
  intros Hr Hacc. pose proof (accepted_sorted platform l Hacc) as Hs.
  clear Hacc. induction Hs as [|a rest Hrest IH Ha].
  - constructor.
  - inversion Hr as [|? ? Hra Hrrest]; subst.
    constructor; [auto|].
    rewrite Forall_forall in *. intros b Hb.
    apply sequential_group_le; auto. exact (Ha b Hb).
Qed.

Lemma accepted_list_has_contiguous_groups_witness :
  StronglySorted (fun a b => group (weight a) <= group (weight b))
    [recordReactComponent; recordHelperB 53 87].
Proof.
  apply (accepted_list_has_contiguous_groups "linux");
    [ repeat constructor; simpl; lia | reflexivity ].
Defined.

(** ** The code regenerator *)

Lemma compare_total_on_distinct l x y :
  distinctKeys l = true -> In x l -> In y l ->
  compareImportRecords x y <= 0 \/ compareImportRecords y x <= 0.
Proof.
  intros Hd Hx Hy.
  destruct (areImportWeightsSequential (weight x) (weight y)) eqn:Hxy.
  { left. apply compareImportRecords_le. now right. }
  destruct (areImportWeightsSequential (weight y) (weight x)) eqn:Hyx.
  { right. apply compareImportRecords_le. now right. }
  pose proof (sequential_total _ _ Hxy Hyx) as Hk.
  rewrite (distinctKeys_In l x y Hd Hx Hy Hk).
  left. apply compareImportRecords_le. now left.
Qed.

Lemma sorted_distinct_precedes l s :
  distinctKeys l = true -> (forall r, In r s -> In r l) -> NoDup s ->
  sortedBy compareImportRecords s -> StronglySorted precedes s.
Proof.
  intros Hd Hin Hnd Hs. unfold sortedBy in Hs.
  induction Hs as [|a t Ht IH Ha].
  - constructor.
  - inversion Hnd as [|? ? Hnotin Hnd']; subst.
    constructor.
    + apply IH; auto. intros r Hr. apply Hin. now right.
    + rewrite Forall_forall in *. intros b Hb.
      specialize (Ha b Hb). apply compareImportRecords_le in Ha as [He|Hseq];
        [|exact Hseq].
      exfalso. apply Hnotin.
      assert (Hab : a = b).
      { apply (distinctKeys_In l); auto.
        - apply Hin. now left.
        - apply Hin. now right.
        - rewrite He. apply sameKey_refl. }
      now rewrite Hab.
Qed.

Lemma insert_filter_equal w x l :
  filter (fun r => areImportWeightsEqual (weight r) w)
         (insert compareImportRecords x l) =
  filter (fun r => areImportWeightsEqual (weight r) w) (x :: l).
Proof.
  induction l as [|y rest IH]; [reflexivity|].
  cbn [insert].
  destruct (Z.leb_spec (compareImportRecords x y) 0) as [Hle|Hgt];
    [reflexivity|].
  cbn [filter] in *. rewrite IH.
  destruct (areImportWeightsEqual (weight x) w) eqn:Hx; [|reflexivity].
  destruct (areImportWeightsEqual (weight y) w) eqn:Hy; [|reflexivity].
  apply areImportWeightsEqual_eq in Hx, Hy.
  assert (Hc : compareImportRecords x y <= 0).
  { apply compareImportRecords_le. left. congruence. }
  lia.
Qed.




(** X9: the sort is stable on equal weights: the records of any one weight
    come out in the order in which they were given, whatever the other
    records are. *)
Theorem records_of_equal_weight_keep_their_order w l :
  filter (fun r => areImportWeightsEqual (weight r) w) (sortedImportRecords l) =
  filter (fun r => areImportWeightsEqual (weight r) w) l.
Proof.
  unfold sortedImportRecords.
  induction l as [|x rest IH]; [reflexivity|].
  cbn [Array_sort]. rewrite insert_filter_equal.
  cbn [filter]. now rewrite IH.
Qed.

(** X10: when no two records share their ordering key, the sorted list is
    strictly increasing: every record is sequential to every later one, so
    the weight test of the validator passes on every adjacent pair of the
    regenerated order. *)
Theorem sorted_records_are_sequential l :
  distinctKeys l = true ->
  StronglySorted precedes (sortedImportRecords l).
Proof.
  intros Hd.
  pose proof (Array_sort_perm compareImportRecords l) as Hp.
  apply (sorted_distinct_precedes l); auto.
  - intros r Hr. apply (Permutation_in _ (Permutation_sym Hp)). exact Hr.
  - apply (Permutation_NoDup Hp). now apply distinctKeys_NoDup.
  - apply (Array_sort_sorted compareImportRecords (fun r => In r l)).
    + intros x y z _ _ _. apply compareImportRecords_trans.
    + intros x y. now apply compare_total_on_distinct.
    + apply Forall_forall. auto.
Qed.

Lemma sorted_records_are_sequential_witness :
  StronglySorted precedes
    (sortedImportRecords [recordHelperB 0 34; recordReactComponent]).
Proof.
  apply sorted_records_are_sequential. reflexivity.
Defined.


(** ** The renderer *)

(** X12: the renderer returns the empty string only for a record without
    any binding: with a truthy default import, a truthy namespace import or
    a named import the text is an import statement. *)
Theorem render_is_empty_only_without_bindings r :
  getImportRecordAsCodeString r = "" <->
  truthy (defaultImport r) = false /\ truthy (namespaceImport r) = false /\
  singleImports r = [].
Proof.
  split.
  - unfold getImportRecordAsCodeString. cbv zeta.
    destruct (truthy (defaultImport r)), (truthy (namespaceImport r)),
      (singleImports r); cbn; intros H; try discriminate H; auto.
  - intros (Hd & Hn & Hs). unfold getImportRecordAsCodeString. cbv zeta.
    now rewrite Hd, Hn, Hs.
Qed.

Lemma render_is_empty_only_without_bindings_witness :
  truthy (defaultImport recordEmpty) = false /\
  truthy (namespaceImport recordEmpty) = false /\
  singleImports recordEmpty = [].
Proof.
  apply (proj1 (render_is_empty_only_without_bindings recordEmpty)).
  reflexivity.
Defined.

(** X13: a record with a namespace import is rendered without its named
    imports: the text is the default-and-namespace form or the namespace
    form and does not depend on [singleImports]. *)
Theorem namespace_forms_drop_named_imports r :
  truthy (namespaceImport r) = true ->
  getImportRecordAsCodeString r =
  (if truthy (defaultImport r)
   then "import " ++ toString (defaultImport r) ++ ", * as "
          ++ toString (namespaceImport r) ++ " from '" ++ path r ++ "';"
   else "import * as " ++ toString (namespaceImport r)
          ++ " from '" ++ path r ++ "';")%string.
Proof.
  intros Hn. unfold getImportRecordAsCodeString. cbv zeta. rewrite Hn.
  destruct (truthy (defaultImport r)); reflexivity.
Qed.

Lemma namespace_forms_drop_named_imports_witness :
  getImportRecordAsCodeString
    {| defaultImport := None; namespaceImport := Some "utilities";
       singleImports := [ {| name := "pick"; alias := "pick" |} ];
       path := "utility-belt";
       weight := degenerateWeight;
       node := mkImport 0 43 [] "utility-belt" |}
  = "import * as utilities from 'utility-belt';"%string.
Proof.
  apply (namespace_forms_drop_named_imports
           {| defaultImport := None; namespaceImport := Some "utilities";
              singleImports := [ {| name := "pick"; alias := "pick" |} ];
              path := "utility-belt";
              weight := degenerateWeight;
              node := mkImport 0 43 [] "utility-belt" |}).
  reflexivity.
Defined.

(** ** The record builder *)

Lemma pop_app_last {A : Type} (l : list A) (x : A) : pop (l ++ [x]) = Some x.
Proof.
  induction l as [|y rest IH]; [reflexivity|].
  simpl. destruct (rest ++ [x]) eqn:E; [|exact IH].
  destruct rest; discriminate.
Qed.

Lemma filter_none {A : Type} (f : A -> bool) (l : list A) :
  forallb (fun x => negb (f x)) l = true -> filter f l = [].
Proof.
  induction l as [|x rest IH]; simpl; [reflexivity|].
  rewrite andb_true_iff. intros [Hx Hrest].
  destruct (f x); [discriminate|auto].
Qed.

Lemma nodeDefaultImport_last importNode pre d post :
  specifiers importNode = pre ++ d :: post ->
  isDefaultImportSpecifier d = true ->
  forallb (fun s => negb (isDefaultImportSpecifier s)) post = true ->
  nodeDefaultImport importNode = Some (local_name d).
Proof.
  intros Hs Hd Hpost. unfold nodeDefaultImport. rewrite Hs.
  rewrite filter_app. cbn [filter]. rewrite Hd, (filter_none _ _ Hpost).
  rewrite map_app. cbn [map]. apply pop_app_last.
Qed.

(** X14: when [createImportRecord] throws.  A declaration whose path is
    unmatched, or which has a truthy default name, a truthy namespace name
    or a named specifier, is built into the record of its three parts, its
    path and itself; any other declaration throws a TypeError. *)
Theorem createImportRecord_outcome isMatch groups importNode :
  let d := nodeDefaultImport importNode in
  let n := nodeNamespaceImport importNode in
  let s := nodeSingleImports importNode in
  (isUnmatched isMatch groups (source_value importNode) || hasSortName d n s = true ->
   exists w,
     createImportRecord isMatch groups importNode =
     Normal {| defaultImport := d; namespaceImport := n; singleImports := s;
               path := source_value importNode; weight := w;
               node := importNode |}) /\
  (isUnmatched isMatch groups (source_value importNode) || hasSortName d n s = false ->
   createImportRecord isMatch groups importNode = Throw TypeError).
Proof.
  intros d n s. unfold createImportRecord. cbv zeta.
  fold (nodeDefaultImport importNode) (nodeNamespaceImport importNode)
       (nodeSingleImports importNode). fold d n s.
  destruct (isUnmatched isMatch groups (source_value importNode)) eqn:Hu.
  - rewrite (getImportWeight_unmatched _ _ d n s _ Hu). cbn [bind orb].
    split; [|discriminate]. intros _. eexists. reflexivity.
  - destruct (getImportWeight_matched isMatch groups d n s _ Hu)
      as (a & k & g & _ & _ & Heq).
    rewrite Heq. cbn [orb]. split.
    + intros Hname.
      destruct (matchedImportWeight_named d n s (Z.of_nat a) (Z.of_nat k) Hname)
        as (w & Hw & _).
      rewrite Hw. cbn [bind]. eexists. reflexivity.
    + intros Hname. unfold matchedImportWeight, hasSortName in *.
      destruct (truthy d); [discriminate|].
      destruct (truthy n); [discriminate|].
      destruct s; [reflexivity|discriminate].
Qed.

Lemma createImportRecord_outcome_witness :
  (exists w,
      createImportRecord sampleIsMatch configuration.groups (nodeHelperB 0 34) =
      Normal {| defaultImport := nodeDefaultImport (nodeHelperB 0 34);
                namespaceImport := nodeNamespaceImport (nodeHelperB 0 34);
                singleImports := nodeSingleImports (nodeHelperB 0 34);
                path := source_value (nodeHelperB 0 34); weight := w;
                node := nodeHelperB 0 34 |}) /\
  createImportRecord sampleIsMatch configuration.groups nodeSideEffect
    = Throw TypeError.
Proof.
  split.
  - apply (proj1 (createImportRecord_outcome sampleIsMatch configuration.groups
                    (nodeHelperB 0 34))). reflexivity.
  - apply (proj2 (createImportRecord_outcome sampleIsMatch configuration.groups
                    nodeSideEffect)). reflexivity.
Defined.

(** X15: the last default specifier wins.  When a declaration carries
    several default specifiers, the record has the local name of the last
    one; if that name is not empty the record is built without error and its
    weight has type 0. *)
Theorem last_default_specifier_wins isMatch groups importNode pre d post :
  specifiers importNode = pre ++ d :: post ->
  isDefaultImportSpecifier d = true ->
  forallb (fun s => negb (isDefaultImportSpecifier s)) post = true ->
  local_name d <> "" ->
  exists r,
    createImportRecord isMatch groups importNode = Normal r /\
    defaultImport r = Some (local_name d) /\
    type (weight r) = 0.
Proof.
  intros Hs Hd Hpost Hname.
  pose proof (nodeDefaultImport_last importNode pre d post Hs Hd Hpost) as Hdef.
  assert (Htruthy : truthy (Some (local_name d)) = true).
  { simpl. destruct (String.eqb_spec (local_name d) ""); [contradiction|reflexivity]. }
  unfold createImportRecord. cbv zeta.
  fold (nodeDefaultImport importNode) (nodeNamespaceImport importNode)
       (nodeSingleImports importNode).
  rewrite Hdef.
  destruct (isUnmatched isMatch groups (source_value importNode)) eqn:Hu.
  - rewrite (getImportWeight_unmatched _ _ _ _ _ _ Hu). cbn [bind].
    eexists. repeat split.
  - destruct (getImportWeight_matched isMatch groups (Some (local_name d))
                (nodeNamespaceImport importNode) (nodeSingleImports importNode)
                _ Hu) as (a & k & g & _ & _ & Heq).
    rewrite Heq. unfold matchedImportWeight. rewrite Htruthy. cbn [bind].
    eexists. repeat split.
Qed.

Lemma last_default_specifier_wins_witness :
  exists r,
    createImportRecord sampleIsMatch configuration.groups
      (mkImport 0 30
         [ mkSpecifier "ImportDefaultSpecifier" "First" "First";
           mkSpecifier "ImportDefaultSpecifier" "Second" "Second";
           mkSpecifier "ImportSpecifier" "useState" "useState" ] "react")
      = Normal r /\
    defaultImport r = Some (local_name (mkSpecifier "ImportDefaultSpecifier" "Second" "Second")) /\
    type (weight r) = 0.
Proof.
  apply (last_default_specifier_wins sampleIsMatch configuration.groups
           (mkImport 0 30
              [ mkSpecifier "ImportDefaultSpecifier" "First" "First";
                mkSpecifier "ImportDefaultSpecifier" "Second" "Second";
                mkSpecifier "ImportSpecifier" "useState" "useState" ] "react")
           [ mkSpecifier "ImportDefaultSpecifier" "First" "First" ]
           (mkSpecifier "ImportDefaultSpecifier" "Second" "Second")
           [ mkSpecifier "ImportSpecifier" "useState" "useState" ]);
    [reflexivity | reflexivity | reflexivity | discriminate].
Defined.

(** ** The rule *)

(** X16: what the weighted rule reports.  When the records of the import
    declarations of a file are built without error, nothing is reported if
    the validator accepts them; otherwise one report spans from the start
    of the first import declaration to the end of the last one and carries
    the regenerated text of all the records.  Other nodes of the body play
    no part. *)
Theorem Program_reports_rejected_blocks isMatch groups platform body importRecords :
  mapM (createImportRecord isMatch groups) (filter isImportNode body)
    = Normal importRecords ->
  (areImportRecordsCorrectlyGrouped platform importRecords = true ->
   Program isMatch groups platform body = Normal None) /\
  (areImportRecordsCorrectlyGrouped platform importRecords = false ->
   exists first rest,
     filter isImportNode body = first :: rest /\
     Program isMatch groups platform body =
     Normal (Some {| report_start := node_start first;
                     report_end := node_end (last rest first);
                     message := "Imports are in the wrong order";
                     fix_range := (node_start first, node_end (last rest first));
                     fix_text := getFixedImportRecords importRecords |})).
Proof.
  intros Hrec. unfold Program. cbv zeta.
  destruct (filter isImportNode body) as [|first rest] eqn:Hnodes.
  - simpl in Hrec. injection Hrec as <-. split; [reflexivity|discriminate].
  - rewrite Hrec. cbn [bind]. split; intros Hv; rewrite Hv; cbn [negb].
    + reflexivity.
    + exists first, rest. split; [reflexivity|].
      replace (last (first :: rest) first) with (last rest first);
        [reflexivity|].
      destruct rest; reflexivity.
Qed.

Lemma Program_reports_rejected_blocks_witness :
  Program sampleIsMatch [["react"]; ["utils/**"]] "linux"
    [nodeReact 0 26; nodeHelperB 28 62] = Normal None.
Proof.
  destruct (Program_reports_rejected_blocks sampleIsMatch
              [["react"]; ["utils/**"]] "linux"
              [nodeReact 0 26; nodeHelperB 28 62] _ eq_refl) as [H _].
  apply H. reflexivity.
Defined.

(** X17: a file with a single import declaration is never reported: the
    pass ends without a report, or with the TypeError of the record
    builder. *)
Theorem single_import_is_never_reported isMatch groups platform body importNode :
  filter isImportNode body = [importNode] ->
  Program isMatch groups platform body =
  (_ <- createImportRecord isMatch groups importNode ;; Normal None).
Proof.
  intros Hnodes. unfold Program. cbv zeta. rewrite Hnodes. cbn [mapM].
  destruct (createImportRecord isMatch groups importNode); reflexivity.
Qed.

Lemma single_import_is_never_reported_witness :
  Program sampleIsMatch configuration.groups "linux" [nodeReact 5 31] =
  (_ <- createImportRecord sampleIsMatch configuration.groups (nodeReact 5 31) ;;
   Normal None).
Proof.
  apply single_import_is_never_reported. reflexivity.
Defined.

(** ** The bucket variant *)

Section BucketFacts.

Variable isMatch : string -> string -> bool.

Lemma matchesGroup_existsb path g :
  Bucket.matchesGroup isMatch path g = existsb (isMatch path) g.
Proof.
  induction g as [|m rest IH]; simpl; [reflexivity|].
  now destruct (isMatch path m).
Qed.

Lemma existsb_unmatchedIn path g :
  existsb (isMatch path) g = negb (unmatchedIn isMatch path g).
Proof.
  unfold unmatchedIn. induction g as [|m rest IH]; simpl; [reflexivity|].
  rewrite IH. now destruct (isMatch path m).
Qed.

Lemma firstGroupIndex_lt gs path k :
  firstGroupIndex isMatch gs path = Some k -> (k < List.length gs)%nat.
Proof.
  revert k; induction gs as [|g rest IH]; simpl; intros k; [discriminate|].
  destruct (existsb (isMatch path) g).
  - intros [= <-]. lia.
  - destruct (firstGroupIndex isMatch rest path) as [k'|]; simpl;
      [|discriminate].
    intros [= <-]. specialize (IH k' eq_refl). lia.
Qed.

Lemma firstGroupIndex_none gs path :
  firstGroupIndex isMatch gs path = None <-> isUnmatched isMatch gs path = true.
Proof.
  unfold isUnmatched. induction gs as [|g rest IH]; simpl; [tauto|].
  rewrite existsb_unmatchedIn.
  destruct (unmatchedIn isMatch path g); simpl.
  - rewrite <- IH.
    destruct (firstGroupIndex isMatch rest path); simpl; split;
      congruence.
  - split; discriminate.
Qed.

Lemma groupImportRecord_firstGroupIndex r gs i grouped :
  Bucket.groupImportRecord isMatch r gs i grouped =
  match firstGroupIndex isMatch gs (Bucket.path r) with
  | Some k => Bucket.push (i + k) r grouped
  | None => Normal grouped
  end.
Proof.
  revert i; induction gs as [|g rest IH]; intros i; simpl; [reflexivity|].
  rewrite matchesGroup_existsb.
  destruct (existsb (isMatch (Bucket.path r)) g).
  - now rewrite Nat.add_0_r.
  - rewrite IH.
    destruct (firstGroupIndex isMatch rest (Bucket.path r)); simpl;
      [|reflexivity].
    now rewrite Nat.add_succ_r.
Qed.

Lemma push_in_range i r grouped :
  (i < List.length grouped)%nat ->
  exists grouped',
    Bucket.push i r grouped = Normal grouped' /\
    List.length grouped' = List.length grouped /\
    forall j, nth j grouped' [] =
              if (j =? i)%nat then (nth j grouped [] ++ [r])%list
              else nth j grouped [].
Proof.
  revert i; induction grouped as [|bucket rest IH]; intros i Hi; simpl in Hi;
    [lia|].
  destruct i as [|i]; simpl.
  - eexists. split; [reflexivity|]. split; [reflexivity|].
    intros [|j]; reflexivity.
  - destruct (IH i) as (rest' & Hp & Hlen & Hnth); [lia|].
    rewrite Hp. simpl. eexists. split; [reflexivity|].
    split; [simpl; now rewrite Hlen|].
    intros [|j]; simpl; [reflexivity|]. apply Hnth.
Qed.

Lemma push_out_of_range i r grouped :
  (List.length grouped <= i)%nat -> Bucket.push i r grouped = Throw TypeError.
Proof.
  revert i; induction grouped as [|bucket rest IH]; intros i Hi.
  - destruct i; reflexivity.
  - simpl in Hi. destruct i as [|i]; [lia|].
    simpl. rewrite IH; [reflexivity|lia].
Qed.

Lemma forEachImportNode_buckets groups importNodes grouped :
  List.length grouped = List.length groups ->
  exists grouped',
    Bucket.forEachImportNode isMatch groups importNodes grouped = Normal grouped' /\
    List.length grouped' = List.length groups /\
    forall j, nth j grouped' [] =
              (nth j grouped [] ++
               filter (inGroup isMatch groups j)
                      (map Bucket.createImportRecord importNodes))%list.
Proof.
  revert grouped; induction importNodes as [|importNode rest IH];
    intros grouped Hlen.
  - exists grouped. split; [reflexivity|]. split; [assumption|].
    intros j. simpl. now rewrite app_nil_r.
  - cbn [Bucket.forEachImportNode map].
    set (r := Bucket.createImportRecord importNode).
    rewrite groupImportRecord_firstGroupIndex.
    destruct (firstGroupIndex isMatch groups (Bucket.path r)) as [k|] eqn:Hk.
    + pose proof (firstGroupIndex_lt _ _ _ Hk) as Hlt.
      destruct (push_in_range k r grouped) as (g1 & Hp & Hlen1 & Hnth1); [lia|].
      change (0 + k)%nat with k. rewrite Hp. cbn [bind].
      destruct (IH g1) as (g2 & Hf & Hlen2 & Hnth2); [lia|].
      exists g2. split; [assumption|]. split; [assumption|].
      intros j. rewrite Hnth2, Hnth1. cbn [filter].
      replace (inGroup isMatch groups j r) with (k =? j)%nat
        by (unfold inGroup; now rewrite Hk).
      rewrite (Nat.eqb_sym k j).
      destruct (j =? k)%nat; [|reflexivity].
      now rewrite <- app_assoc.
    + cbn [bind].
      destruct (IH grouped Hlen) as (g2 & Hf & Hlen2 & Hnth2).
      exists g2. split; [assumption|]. split; [assumption|].
      intros j. rewrite Hnth2. cbn [filter].
      replace (inGroup isMatch groups j r) with false
        by (unfold inGroup; now rewrite Hk).
      reflexivity.
Qed.

Lemma In_concat_nth {A : Type} (x : A) (g : list (list A)) :
  In x (List.concat g) <-> exists j, In x (nth j g []).
Proof.
  rewrite in_concat. split.
  - intros (l & Hl & Hx). destruct (In_nth g l [] Hl) as (j & _ & Hj).
    exists j. now rewrite Hj.
  - intros (j & Hx). exists (nth j g []). split; [|assumption].
    destruct (Nat.lt_ge_cases j (List.length g)) as [Hlt|Hge].
    + now apply nth_In.
    + rewrite (nth_overflow g [] Hge) in Hx. contradiction.
Qed.

Lemma groups_firstGroupIndex d n s path gs i res :
  getImportWeight_groups isMatch d n s path gs i = Some res ->
  exists k j,
    firstGroupIndex isMatch gs path = Some k /\
    res = matchedImportWeight d n s (i + Z.of_nat k) j.
Proof.
  revert i; induction gs as [|g rest IH]; intros i; simpl; [discriminate|].
  rewrite existsb_unmatchedIn.
  destruct (getImportWeight_patterns isMatch d n s path i g 0) eqn:Hp.
  - intros [= <-].
    destruct (unmatchedIn isMatch path g) eqn:Hu.
    + apply (patterns_none isMatch d n s path i g 0) in Hu. congruence.
    + apply patterns_some in Hp as (k & _ & _ & _ & _ & ->).
      exists 0%nat, (0 + Z.of_nat k). split; [reflexivity|].
      f_equal. lia.
  - apply patterns_none in Hp. rewrite Hp. simpl. intros H.
    destruct (IH _ H) as (k & j & Hk & ->).
    exists (S k), j. rewrite Hk. split; [reflexivity|]. f_equal. lia.
Qed.

End BucketFacts.

(** X18: the bucket rule reports every file that has an import
    declaration, in order or not: on a state with one bucket per group the
    pass does not throw, keeps one bucket per group, and makes no report
    only when the body has no import declaration. *)
Theorem bucket_rule_reports_every_file_with_imports isMatch groups grouped body :
  List.length grouped = List.length groups ->
  exists grouped' report,
    Bucket.Program isMatch groups grouped body = Normal (grouped', report) /\
    List.length grouped' = List.length groups /\
    (report = None <-> filter isImportNode body = []).
Proof.
  intros Hlen. unfold Bucket.Program. cbv zeta.
  destruct (filter isImportNode body) as [|first rest] eqn:Hnodes.
  - exists grouped, None. repeat split; auto.
  - destruct (forEachImportNode_buckets isMatch groups (first :: rest) grouped Hlen)
      as (g' & Hf & Hlen' & _).
    rewrite Hf. cbn [bind]. eexists. eexists.
    split; [reflexivity|]. split; [assumption|].
    split; discriminate.
Qed.

Lemma bucket_rule_reports_every_file_with_imports_witness :
  exists grouped' report,
    Bucket.Program sampleIsMatch [["react"]; ["utils/**"]]
      (Bucket.create [["react"]; ["utils/**"]])
      [nodeReact 0 26; nodeHelperB 28 62] = Normal (grouped', report) /\
    List.length grouped' = List.length [["react"]; ["utils/**"]] /\
    (report = None <->
     filter isImportNode [nodeReact 0 26; nodeHelperB 28 62] = []).
Proof.
  apply bucket_rule_reports_every_file_with_imports. reflexivity.
Defined.

(** X19: what the buckets hold after a pass.  Bucket [j] is extended, in
    source order, by the records of the declarations whose first matching
    group is group [j]; what the bucket held before the pass stays in
    front. *)
Theorem bucket_holds_records_of_its_group isMatch groups importNodes grouped :
  List.length grouped = List.length groups ->
  exists grouped',
    Bucket.forEachImportNode isMatch groups importNodes grouped = Normal grouped' /\
    forall j, nth j grouped' [] =
              (nth j grouped [] ++
               filter (inGroup isMatch groups j)
                      (map Bucket.createImportRecord importNodes))%list.
Proof.
  intros Hlen.
  destruct (forEachImportNode_buckets isMatch groups importNodes grouped Hlen)
    as (g' & Hf & _ & Hnth).
  exists g'. auto.
Qed.

Lemma bucket_holds_records_of_its_group_witness :
  exists grouped',
    Bucket.forEachImportNode sampleIsMatch [["react"]; ["utils/**"]]
      [nodeHelperB 0 34; nodeReact 35 61]
      (Bucket.create [["react"]; ["utils/**"]]) = Normal grouped' /\
    forall j, nth j grouped' [] =
              (nth j (Bucket.create [["react"]; ["utils/**"]]) [] ++
               filter (inGroup sampleIsMatch [["react"]; ["utils/**"]] j)
                      (map Bucket.createImportRecord
                           [nodeHelperB 0 34; nodeReact 35 61]))%list.
Proof.
  apply bucket_holds_records_of_its_group. reflexivity.
Defined.

(** X20: the bucket rule loses the imports it cannot place.  Starting from
    the fresh state, the buckets together hold exactly the records of the
    declarations whose path matches some configured pattern; a declaration
    with an unmatched path is in no bucket, hence not in the replacement
    text. *)
Theorem bucket_rule_drops_unmatched_imports isMatch groups importNodes :
  exists grouped',
    Bucket.forEachImportNode isMatch groups importNodes (Bucket.create groups)
      = Normal grouped' /\
    forall r,
      In r (List.concat grouped') <->
      In r (map Bucket.createImportRecord importNodes) /\
      isUnmatched isMatch groups (Bucket.path r) = false.
Proof.
  destruct (forEachImportNode_buckets isMatch groups importNodes
              (Bucket.create groups)) as (g' & Hf & _ & Hnth).
  { unfold Bucket.create. apply repeat_length. }
  exists g'. split; [assumption|].
  assert (Hempty : forall j, nth j (Bucket.create groups) [] = []).
  { intros j. unfold Bucket.create. apply nth_repeat. }
  intros r. rewrite In_concat_nth. split.
  - intros (j & Hin). rewrite Hnth, Hempty in Hin. simpl in Hin.
    apply filter_In in Hin as [Hin Hg]. split; [assumption|].
    unfold inGroup in Hg.
    destruct (isUnmatched isMatch groups (Bucket.path r)) eqn:Hu;
      [|reflexivity].
    apply firstGroupIndex_none in Hu. now rewrite Hu in Hg.
  - intros [Hin Hu].
    destruct (firstGroupIndex isMatch groups (Bucket.path r)) as [k|] eqn:Hk.
    + exists k. rewrite Hnth, Hempty. simpl. apply filter_In.
      split; [assumption|]. unfold inGroup. rewrite Hk. apply Nat.eqb_refl.
    + apply firstGroupIndex_none in Hk. congruence.
Qed.

(** X21: the two rules render a record alike: the renderer of the bucket
    rule, applied to the four fields of a weighted record, gives the text of
    the weighted rule's renderer. *)
Theorem both_rules_render_alike r :
  Bucket.getImportRecordAsCodeString (forgetWeight r) =
  getImportRecordAsCodeString r.
Proof. reflexivity. Qed.

(** X22: the two rules agree on the group of a declaration.  When the
    weighted builder returns a record for a declaration with a matched
    path, the bucket rule builds the same four fields, and the first
    matching group that selects its bucket is the group index of the
    weight. *)
Theorem bucket_is_the_weight_group isMatch groups importNode r :
  createImportRecord isMatch groups importNode = Normal r ->
  isUnmatched isMatch groups (path r) = false ->
  Bucket.createImportRecord importNode = forgetWeight r /\
  firstGroupIndex isMatch groups (Bucket.path (Bucket.createImportRecord importNode))
    = Some (Z.to_nat (group (weight r))) /\
  0 <= group (weight r) < Z.of_nat (List.length groups).
Proof.
  intros Hr Hu.
  assert (Hfields : Bucket.createImportRecord importNode = forgetWeight r).
  { unfold createImportRecord in Hr. cbv zeta in Hr.
    destruct (getImportWeight isMatch groups _ _ _ _); [|discriminate].
    cbn [bind] in Hr. injection Hr as <-. reflexivity. }
  split; [assumption|]. rewrite Hfields. cbn [forgetWeight Bucket.path].
  apply createImportRecord_fields in Hr as (_ & _ & Hw).
  unfold getImportWeight in Hw.
  destruct (getImportWeight_groups isMatch (defaultImport r) (namespaceImport r)
              (singleImports r) (path r) groups 0) as [res|] eqn:Hres.
  - apply groups_firstGroupIndex in Hres as (k & j & Hk & ->).
    apply matchedImportWeight_shape in Hw as (Hg & _).
    pose proof (firstGroupIndex_lt _ _ _ _ Hk) as Hlt.
    rewrite Hk, Hg. split; [f_equal; lia | lia].
  - apply groups_none in Hres. congruence.
Qed.

Lemma bucket_is_the_weight_group_witness :
  Bucket.createImportRecord (nodeHelperB 0 34) = forgetWeight (recordHelperB 0 34) /\
  firstGroupIndex sampleIsMatch [["react"]; ["utils/**"]]
    (Bucket.path (Bucket.createImportRecord (nodeHelperB 0 34)))
    = Some (Z.to_nat (group (weight (recordHelperB 0 34)))) /\
  0 <= group (weight (recordHelperB 0 34))
    < Z.of_nat (List.length [["react"]; ["utils/**"]]).
Proof.
  apply (bucket_is_the_weight_group sampleIsMatch [["react"]; ["utils/**"]]);
    reflexivity.
Defined.

(** ** Reading a regenerated block back *)

Lemma precedes_by_weights s s' :
  map weight s' = map weight s ->
  StronglySorted precedes s -> StronglySorted precedes s'.
Proof.
  revert s; induction s' as [|a' t' IH]; intros [|a t] Hw Hs;
    try discriminate; [constructor|].
  simpl in Hw. injection Hw as Ha Ht.
  apply StronglySorted_inv in Hs as [Hst Hat].
  constructor; [eauto|].
  assert (Hall : Forall (fun w => areImportWeightsSequential (weight a) w = true)
                   (map weight t)).
  { apply Forall_map. exact Hat. }
  rewrite <- Ht in Hall. apply Forall_map in Hall.
  eapply Forall_impl; [|exact Hall]. intros b Hb. unfold precedes. now rewrite Ha.
Qed.

Lemma laidOut_at pre a b post :
  laidOut (pre ++ a :: b :: post) ->
  node_start (node b) - node_end (node a) =
  (if group (weight b) =? group (weight a) then 1 else 2).
Proof.
  induction pre as [|p [|q pre] IH]; simpl.
  - tauto.
  - intros [_ H]. apply IH. exact H.
  - intros [_ H]. apply IH. exact H.
Qed.

Lemma sorted_laidOut_accepted platform s :
  LINE_BREAK_LENGTH platform = 1 ->
  StronglySorted precedes s -> laidOut s ->
  areImportRecordsCorrectlyGrouped platform s = true.
Proof.
  intros Hlb. induction s as [|a [|b rest] IH]; intros Hs Hl;
    [reflexivity|reflexivity|].
  apply StronglySorted_inv in Hs as [Hrest Ha].
  destruct Hl as [Hgap Hl].
  apply accepted_cons. split; [|auto].
  apply isPairFlagged_false. split.
  - inversion Ha; assumption.
  - intros Hlt. rewrite Hgap, Hlb.
    destruct (Z.eqb_spec (group (weight b)) (group (weight a))); lia.
Qed.

(** X23: reading a regenerated block back.  Take records without key
    collision, and records with the weights of the sorted list whose
    declarations sit as the regenerated text lays them out.  Where the line
    break has length 1 the validator accepts them; on win32, where it has
    length 2, the validator rejects them as soon as two neighbours belong to
    different groups. *)
Theorem regenerated_layout_is_accepted platform l s :
  distinctKeys l = true ->
  map weight s = map weight (sortedImportRecords l) ->
  laidOut s ->
  (platform <> "win32"%string ->
   areImportRecordsCorrectlyGrouped platform s = true) /\
  (platform = "win32"%string ->
   forall pre a b post,
     s = pre ++ a :: b :: post -> group (weight a) < group (weight b) ->
     areImportRecordsCorrectlyGrouped platform s = false).
Proof.
  intros Hd Hw Hl. split.
  - intros Hp. apply sorted_laidOut_accepted; auto.
    + unfold LINE_BREAK_LENGTH.
      destruct (String.eqb_spec platform "win32"); [contradiction|reflexivity].
    + apply (precedes_by_weights (sortedImportRecords l)); auto.
      now apply (sorted_distinct_precedes l (sortedImportRecords l) Hd);
        [ intros r Hr;
          apply (Permutation_in _
                   (Permutation_sym (Array_sort_perm compareImportRecords l)) Hr)
        | apply (Permutation_NoDup (Array_sort_perm compareImportRecords l));
          apply distinctKeys_NoDup
        | apply (Array_sort_sorted compareImportRecords (fun r => In r l));
          [ intros x y z _ _ _; apply compareImportRecords_trans
          | intros x y; now apply compare_total_on_distinct
          | apply Forall_forall; auto ] ].
  - intros -> pre a b post -> Hlt.
    apply flagged_pair_fails. unfold isPairFlagged.
    rewrite (laidOut_at _ _ _ _ Hl).
    apply Z.ltb_lt in Hlt. rewrite Hlt.
    replace (group (weight b) =? group (weight a)) with false
      by (symmetry; apply Z.eqb_neq; apply Z.ltb_lt in Hlt; lia).
    now rewrite orb_true_r.
Qed.

Lemma regenerated_layout_is_accepted_witness :
  areImportRecordsCorrectlyGrouped "linux"
    [recordReactComponent; recordHelperB 53 87] = true.
Proof.
  apply (proj1 (regenerated_layout_is_accepted "linux"
                  [recordHelperB 53 87; recordReactComponent]
                  [recordReactComponent; recordHelperB 53 87]
                  eq_refl eq_refl (conj eq_refl I))).
  discriminate.
Defined.
